(** * Crossword CSP solver (crossword/generate.py): shallow embedding

    The embedding follows [CrosswordCreator] method by method.  Python
    dictionaries are finite maps, Python sets are represented by the list
    of their elements in iteration order, exceptions are explicit
    outcomes, and the mutable attribute [self.domains_of_x] is threaded
    through a state-and-exception monad. *)

From Stdlib Require Import Ascii String.
From stdpp Require Import gmap strings list sorting.

Set Default Proof Using "Type".
Local Open Scope nat_scope.

(** ** Variables of the puzzle (class [Variable]) *)

Module Var.

Inductive Direction := ACROSS | DOWN.

Record t := mk { i : nat; j : nat; direction : Direction; length : nat }.

#[global] Instance Direction_eq_dec : EqDecision Direction.
Proof. solve_decision. Defined.

#[global] Instance t_eq_dec : EqDecision t.
Proof. solve_decision. Defined.

#[global] Instance Direction_countable : Countable Direction :=
  inj_countable'
    (λ d, match d with ACROSS => true | DOWN => false end)
    (λ b : bool, if b then ACROSS else DOWN)
    (λ d, match d with ACROSS => eq_refl | DOWN => eq_refl end).

#[global] Instance t_countable : Countable t :=
  inj_countable'
    (λ v, (i v, j v, direction v, length v))
    (λ p, match p with (a, b, d, l) => mk a b d l end)
    (λ v, match v with mk _ _ _ _ => eq_refl end).

End Var.

(** An arc is an ordered pair of variables. *)
Abbreviation arc := (Var.t * Var.t)%type.

(** ** The puzzle structure (class [Crossword])

    [generate.py] reads three attributes of the crossword: the set
    [variables], the set [words], and the dictionary [overlaps], keyed by
    ordered pairs of variables, whose values are either [None] or a pair
    of character indices. *)

Record Crossword := {
  variables : list Var.t;
  words : list string;
  overlaps : gmap arc (option (nat * nat))
}.

(** Modelled from the spec: the method [Crossword.neighbors] is not part of
    [generate.py].  Neighbors(x) is the set of variables y ≠ x for which
    Overlap(x, y) is defined. *)
Definition has_overlap (c : Crossword) (x y : Var.t) : bool :=
  match overlaps c !! (x, y) with
  | Some (Some _) => true
  | _ => false
  end.

Definition neighbors (c : Crossword) (x : Var.t) : list Var.t :=
  filter (λ y, y ≠ x ∧ has_overlap c x y = true) (variables c).

(** ** Solver state, outcomes and the monad *)

Inductive exn :=
  | KeyError | IndexError | TypeError | ValueError
  | RuntimeError | UnboundLocalError.

(** [Diverge] is the outcome of a loop or recursion that used up its
    iteration budget; no Python run produces it. *)
Inductive outcome (A : Type) :=
  | Ret (a : A)
  | Raise (e : exn)
  | Diverge.
Arguments Ret {A} a.
Arguments Raise {A} e.
Arguments Diverge {A}.

(** [domains_of_x] is the attribute of [CrosswordCreator].  [backtrack_calls]
    is a ghost counter: it is incremented on entry to [backtrack] and read
    by nothing in the program. *)
Record creator := {
  domains_of_x : gmap Var.t (list string);
  backtrack_calls : nat
}.

Definition M (A : Type) : Type := creator → outcome A * creator.

Definition ret {A} (a : A) : M A := λ s, (Ret a, s).
Definition raise {A} (e : exn) : M A := λ s, (Raise e, s).
Definition diverge {A} : M A := λ s, (Diverge, s).

Definition bind {A B} (m : M A) (k : A → M B) : M B :=
  λ s, match m s with
       | (Ret a, s') => k a s'
       | (Raise e, s') => (Raise e, s')
       | (Diverge, s') => (Diverge, s')
       end.

Notation "x <- m ;; k" := (bind m (λ x, k))
  (at level 62, m at next level, right associativity).
Notation "m ;;; k" := (bind m (λ _, k))
  (at level 62, right associativity).

(** [for x in xs: body x] for a body without [break]. *)
Fixpoint for_each {A} (xs : list A) (body : A → M unit) : M unit :=
  match xs with
  | [] => ret tt
  | x :: xs' => body x ;;; for_each xs' body
  end.

(** A list comprehension [[f x for x in xs]]. *)
Fixpoint comprehension {A B} (f : A → M B) (xs : list A) : M (list B) :=
  match xs with
  | [] => ret []
  | x :: xs' => b <- f x ;; bs <- comprehension f xs' ;; ret (b :: bs)
  end.

(** An accumulating loop: [acc] is the local variable the body updates. *)
Fixpoint for_fold {A S} (xs : list A) (acc : S) (body : S → A → M S) : M S :=
  match xs with
  | [] => ret acc
  | x :: xs' => acc' <- body acc x ;; for_fold xs' acc' body
  end.

(** ** Primitive operations on the store and on words *)

(** [self.domains_of_x[v]] *)
Definition domain (v : Var.t) : M (list string) :=
  λ s, match domains_of_x s !! v with
       | Some d => (Ret d, s)
       | None => (Raise KeyError, s)
       end.

(** [set.remove] on the list of the set's elements. *)
Definition set_remove (w : string) (d : list string) : list string :=
  filter (λ w', w' ≠ w) d.

(** [self.domains_of_x[v].remove(w)] *)
Definition remove_word (v : Var.t) (w : string) : M unit :=
  λ s, match domains_of_x s !! v with
       | Some d =>
           (Ret tt, {| domains_of_x := <[v := set_remove w d]> (domains_of_x s);
                       backtrack_calls := backtrack_calls s |})
       | None => (Raise KeyError, s)
       end.

(** [word[k]] for a non-negative index. *)
Definition char_at (word : string) (k : nat) : M ascii :=
  match String.get k word with
  | Some a => ret a
  | None => raise IndexError
  end.

(** [self.crossword.overlaps[x, y]] *)
Definition overlap_of (c : Crossword) (x y : Var.t) : M (option (nat * nat)) :=
  match overlaps c !! (x, y) with
  | Some o => ret o
  | None => raise KeyError
  end.

(** ** [__init__]

    Each domain is a copy of the set [words].  The source does not fix
    the order in which a copy iterates: the list [words c] stands for one
    such order, here the same for every copy, and only the members of a
    domain are meaningful. *)

Definition init (c : Crossword) : creator :=
  {| domains_of_x := list_to_map ((λ var, (var, words c)) <$> variables c);
     backtrack_calls := 0 |}.

(** ** [enforce_node_consistency] *)

Definition enforce_node_consistency (c : Crossword) : M unit :=
  for_each (variables c) (λ var,
    copy <- domain var ;;
    for_each copy (λ word,
      if bool_decide (String.length word ≠ Var.length var)
      then remove_word var word
      else ret tt)).

(** ** [revise]

    The loop runs over the set [self.domains_of_x[x]] itself.  A set
    iterator compares the size of the set with the size it had when the
    iterator was created each time the next element is requested,
    including the request that would end the loop, and raises
    [RuntimeError] when they differ. *)

(** The list built by the comprehension inside the [if not [...]] test:
    one entry, [True] or [None], for every word of Domain(y). *)
Definition support_marks (overlap : nat * nat) (x_word : string)
    (dy : list string) : M (list (option bool)) :=
  comprehension (λ y_word,
    cy <- char_at y_word overlap.2 ;;
    cx <- char_at x_word overlap.1 ;;
    ret (if bool_decide (cy = cx) then Some true else None)) dy.

Fixpoint revise_loop (x y : Var.t) (overlap : nat * nat) (size0 : nat)
    (todo : list string) (revised : bool) : M bool :=
  dx <- domain x ;;
  if bool_decide (List.length dx = size0) then
    match todo with
    | [] => ret revised
    | x_word :: todo' =>
        dy <- domain y ;;
        marks <- support_marks overlap x_word dy ;;
        match marks with
        | [] =>
            remove_word x x_word ;;;
            revise_loop x y overlap size0 todo' true
        | _ :: _ => revise_loop x y overlap size0 todo' revised
        end
    end
  else raise RuntimeError.

Definition revise (c : Crossword) (x y : Var.t) : M bool :=
  overlap <- overlap_of c x y ;;
  match overlap with
  | Some ov =>
      dx <- domain x ;;
      revise_loop x y ov (List.length dx) dx false
  | None => ret false
  end.

(** ** [ac3] *)

(** The worklist built when no arcs are supplied. *)
Definition all_arcs (c : Crossword) : list arc :=
  var1 ← variables c; (λ var2, (var1, var2)) <$> neighbors c var1.

(** [if not arcs: ...]: [None] and the empty list are both falsy. *)
Definition worklist (c : Crossword) (arcs : option (list arc)) : list arc :=
  match arcs with
  | Some (a :: arcs') => a :: arcs'
  | Some [] | None => all_arcs c
  end.

(** The arcs [(var, x)] appended after a revision of [x] against [y]. *)
Definition enqueue (c : Crossword) (x y : Var.t) (arcs : list arc) : list arc :=
  foldl (λ arcs var,
           if decide (var = y) then arcs
           else if decide ((var, x) ∈ arcs) then arcs
           else arcs ++ [(var, x)])
        arcs (neighbors c x).

Fixpoint ac3_loop (c : Crossword) (fuel : nat) (arcs : list arc) : M bool :=
  match arcs with
  | [] => ret true
  | (x, y) :: arcs' =>
      match fuel with
      | O => diverge
      | S fuel' =>
          revised <- revise c x y ;;
          if revised then
            dx <- domain x ;;
            match dx with
            | [] => ret false
            | _ :: _ => ac3_loop c fuel' (enqueue c x y arcs')
            end
          else ac3_loop c fuel' arcs'
      end
  end.

(** Number of words in the whole store. *)
Definition store_size (s : creator) : nat :=
  map_fold (λ _ d n, List.length d + n) 0 (domains_of_x s).

(** Iteration budget of the [while] loop: one iteration for every arc of
    the initial worklist, and for every word that a revision can remove
    at most one re-queued arc per variable. *)
Definition ac3_budget (c : Crossword) (arcs : list arc) (s : creator) : nat :=
  List.length arcs + store_size s * List.length (variables c).

Definition ac3 (c : Crossword) (arcs : option (list arc)) : M bool :=
  λ s, ac3_loop c (ac3_budget c (worklist c arcs) s) (worklist c arcs) s.

(** ** Assignments

    A dictionary from variables to words, as the list of its items in
    insertion order. *)
Abbreviation assignment := (list (Var.t * string)).

(** [new_assignment = assignment.copy(); new_assignment[var] = value] *)
Definition assign (a : assignment) (var : Var.t) (value : string) : assignment :=
  if decide (var ∈ a.*1)
  then (λ kv, if decide (kv.1 = var) then (var, value) else kv) <$> a
  else a ++ [(var, value)].

(** [assignment.keys() == self.crossword.variables]: equality of sets. *)
Definition assignment_complete (c : Crossword) (a : assignment) : bool :=
  bool_decide (a.*1 ⊆ variables c ∧ variables c ⊆ a.*1).

(** ** [consistent] *)

(** A loop whose body may [return]: [Some r] is a return of [r], [None]
    falls through to the next iteration. *)
Fixpoint for_until {A R} (xs : list A) (body : A → M (option R)) : M (option R) :=
  match xs with
  | [] => ret None
  | x :: xs' =>
      r <- body x ;;
      match r with
      | Some v => ret (Some v)
      | None => for_until xs' body
      end
  end.

(** The second loop of [consistent]; [values] is the list built so far. *)
Fixpoint values_ok (values : list string) (a : assignment) : bool :=
  match a with
  | [] => true
  | (variable, value) :: a' =>
      if bool_decide (value ∈ values ∨ String.length value ≠ Var.length variable)
      then false
      else values_ok (values ++ [value]) a'
  end.

(** The body of the two nested loops over [assignment.items()]. *)
Definition check_pair (c : Crossword) (item1 item2 : Var.t * string)
    : M (option bool) :=
  if decide (item1.1 = item2.1) then ret None
  else
    overlap_indices <- overlap_of c item1.1 item2.1 ;;
    match overlap_indices with
    | Some idx =>
        c1 <- char_at item1.2 idx.1 ;;
        c2 <- char_at item2.2 idx.2 ;;
        if bool_decide (c1 ≠ c2) then ret (Some false) else ret None
    | None => ret None
    end.

Definition consistent (c : Crossword) (a : assignment) : M bool :=
  r <- for_until a (λ item1, for_until a (check_pair c item1)) ;;
  match r with
  | Some b => ret b
  | None => ret (values_ok [] a)
  end.

(** ** [order_domain_values] *)

(** [list.sort(key=lambda tup: tup[0])] is a stable sort; insertion from
    the right, placing an item before the items whose key is not smaller,
    computes the same list. *)
Fixpoint insert_by_key (p : nat * string) (l : list (nat * string))
    : list (nat * string) :=
  match l with
  | [] => [p]
  | q :: l' => if decide (q.1 < p.1) then q :: insert_by_key p l' else p :: l
  end.

Definition sort_by_key (l : list (nat * string)) : list (nat * string) :=
  foldr insert_by_key [] l.

(** The body of the loop over [self.domains_of_x[neighbor]].  Subscripting
    [overlap] when it is [None] raises [TypeError]. *)
Definition count_word (overlap : option (nat * nat)) (word : string)
    (amount : nat) (neighbor_word : string) : M nat :=
  match overlap with
  | None => raise TypeError
  | Some ov =>
      cn <- char_at neighbor_word ov.2 ;;
      cw <- char_at word ov.1 ;;
      ret (if bool_decide (cn ≠ cw) then S amount else amount)
  end.

(** The body of the loop over [self.crossword.neighbors(var)]. *)
Definition count_neighbor (c : Crossword) (var : Var.t) (a : assignment)
    (word : string) (amount : nat) (neighbor : Var.t) : M nat :=
  if decide (neighbor ∈ a.*1) then ret amount
  else
    overlap <- overlap_of c var neighbor ;;
    dn <- domain neighbor ;;
    for_fold dn amount (count_word overlap word).

(** The value of [amount_eliminated] for [word]. *)
Definition amount_eliminated (c : Crossword) (var : Var.t) (a : assignment)
    (word : string) : M nat :=
  for_fold (neighbors c var) 0 (count_neighbor c var a word).

Definition order_domain_values (c : Crossword) (var : Var.t) (a : assignment)
    : M (list string) :=
  d <- domain var ;;
  ordered_domains <- comprehension (λ word,
      amount <- amount_eliminated c var a word ;;
      ret (amount, word)) d ;;
  ret ((sort_by_key ordered_domains).*2).

(** ** [select_unassigned_variable]

    [unassigned_vars] is a set; its elements are visited in the order in
    which they occur in [variables]. *)

(** [min(l, key=lambda tup: tup[0])]: the first item with the least key. *)
Definition min_by_key (l : list (nat * Var.t)) : M (nat * Var.t) :=
  match l with
  | [] => raise ValueError
  | p :: l' => ret (foldl (λ best q, if decide (q.1 < best.1) then q else best) p l')
  end.

(** The loop of the degree tie-break.  The state is [max_degree] and the
    local [var_to_be_assigned], which is unbound ([None]) until the first
    assignment to it. *)
Definition pick_by_degree (c : Crossword) (ties : list Var.t)
    : nat * option Var.t :=
  foldl (λ st var,
           let degree := List.length (neighbors c var) in
           if decide (st.1 < degree) then (degree, Some var) else st)
        (0, None) ties.

Definition select_unassigned_variable (c : Crossword) (a : assignment)
    : M Var.t :=
  let unassigned_vars := filter (λ var, var ∉ a.*1) (variables c) in
  length_of_domain <- comprehension (λ var,
      d <- domain var ;; ret (List.length d, var)) unassigned_vars ;;
  min_domain <- min_by_key length_of_domain ;;
  ties <- for_fold unassigned_vars [] (λ ties x,
      d <- domain x ;;
      ret (if decide (List.length d = min_domain.1) then ties ++ [x] else ties)) ;;
  if decide (1 < List.length ties) then
    match (pick_by_degree c ties).2 with
    | Some var_to_be_assigned => ret var_to_be_assigned
    | None => raise UnboundLocalError
    end
  else
    match ties with
    | var_to_be_assigned :: _ => ret var_to_be_assigned
    | [] => raise IndexError
    end.

(** ** [backtrack] and [solve] *)

(** Ghost: records one more entry into [backtrack]. *)
Definition enter_backtrack : M unit :=
  λ s, (Ret tt, {| domains_of_x := domains_of_x s;
                   backtrack_calls := S (backtrack_calls s) |}).

(** [[(neighbor, var) for neighbor in self.crossword.neighbors(var)]] *)
Definition backtrack_arcs (c : Crossword) (var : Var.t) : list arc :=
  (λ neighbor, (neighbor, var)) <$> neighbors c var.

(** [if result:] on a value that is a dictionary or [None]. *)
Definition truthy (result : option assignment) : bool :=
  match result with
  | Some (_ :: _) => true
  | _ => false
  end.

(** The body of the loop over candidate values.  [Some r] means that the
    body executed [return result] with [result = r]; [None] means that the
    candidate was rejected and the loop goes on. *)
Definition backtrack_branch (recur : assignment → M (option assignment))
    (c : Crossword) (a : assignment) (var : Var.t) (value : string)
    : M (option (option assignment)) :=
  let new_assignment := assign a var value in
  ac3 c (Some (backtrack_arcs c var)) ;;;
  ok <- consistent c new_assignment ;;
  if ok then
    result <- recur new_assignment ;;
    ret (if truthy result then Some result else None)
  else ret None.

Definition backtrack_loop (recur : assignment → M (option assignment))
    (c : Crossword) (a : assignment) (var : Var.t) (values : list string)
    : M (option assignment) :=
  r <- for_until values (backtrack_branch recur c a var) ;;
  match r with
  | Some result => ret result
  | None => ret None
  end.

Fixpoint backtrack (c : Crossword) (fuel : nat) (a : assignment)
    : M (option assignment) :=
  match fuel with
  | O => diverge
  | S fuel' =>
      enter_backtrack ;;;
      if assignment_complete c a then ret (Some a)
      else
        var <- select_unassigned_variable c a ;;
        values <- order_domain_values c var a ;;
        backtrack_loop (backtrack c fuel') c a var values
  end.

(** Every recursive call assigns one more variable, so the recursion is
    at most one deeper than the number of variables. *)
Definition solve (c : Crossword) : M (option assignment) :=
  enforce_node_consistency c ;;;
  ac3 c None ;;;
  backtrack c (S (List.length (variables c))) [].

(** ** Properties of computations *)

(** A computation is read-only when it hands back the state it was given,
    whatever its outcome. *)
Definition read_only {A} (m : M A) : Prop := ∀ s, (m s).2 = s.

(** A computation never diverges when no state makes it run out of budget. *)
Definition never_diverges {A} (m : M A) : Prop := ∀ s, (m s).1 ≠ Diverge.

(** A computation is store-stable when every run of it that returns
    leaves [domains_of_x] as it found it. *)
Definition store_stable {A} (m : M A) : Prop :=
  ∀ s r s', m s = (Ret r, s') → domains_of_x s' = domains_of_x s.

(** ** Sample puzzles *)

Definition across2 : Var.t := Var.mk 0 0 Var.ACROSS 2.
Definition down2 : Var.t := Var.mk 0 0 Var.DOWN 2.
Definition down3 : Var.t := Var.mk 0 0 Var.DOWN 3.
Definition lower2 : Var.t := Var.mk 2 0 Var.ACROSS 2.

(** Two slots that share their first cell. *)
Definition crossing (x y : Var.t) (word_list : list string) : Crossword :=
  {| variables := [x; y];
     words := word_list;
     overlaps := <[(x, y) := Some (0, 0)]> (<[(y, x) := Some (0, 0)]> ∅) |}.

(** Two slots that do not meet. *)
Definition apart (x y : Var.t) (word_list : list string) : Crossword :=
  {| variables := [x; y];
     words := word_list;
     overlaps := <[(x, y) := None]> (<[(y, x) := None]> ∅) |}.

(** A single slot. *)
Definition lone (x : Var.t) (word_list : list string) : Crossword :=
  {| variables := [x]; words := word_list; overlaps := ∅ |}.

(** The store when [solve] reaches [self.ac3()]. *)
Definition node_consistent_store (c : Crossword) : creator :=
  (enforce_node_consistency c (init c)).2.

(** A crossing and a third slot that meets neither of its slots. *)
Definition crossing_and_lone (x y z : Var.t) (word_list : list string)
    : Crossword :=
  {| variables := [x; y; z];
     words := word_list;
     overlaps :=
       <[(x, y) := Some (0, 0)]> (<[(y, x) := Some (0, 0)]>
       (<[(x, z) := None]> (<[(z, x) := None]>
       (<[(y, z) := None]> (<[(z, y) := None]> ∅))))) |}.

(** ** The conditions on an assignment, as the specification words them *)

(** The words agree at the overlap indices: both characters exist and are
    the same. *)
Definition agree_at (idx : nat * nat) (val1 val2 : string) : Prop :=
  ∃ ch, String.get idx.1 val1 = Some ch ∧ String.get idx.2 val2 = Some ch.

Definition overlaps_agree (c : Crossword) (a : assignment) : Prop :=
  ∀ var1 val1 var2 val2 idx,
    (var1, val1) ∈ a → (var2, val2) ∈ a → var1 ≠ var2 →
    overlaps c !! (var1, var2) = Some (Some idx) →
    agree_at idx val1 val2.

Definition lengths_fit (a : assignment) : Prop :=
  ∀ var val, (var, val) ∈ a → String.length val = Var.length var.

Definition words_distinct (a : assignment) : Prop := NoDup a.*2.

(** The dictionary [overlaps] has an entry, possibly [None], for every
    ordered pair of distinct variables of [vars]. *)
Definition overlaps_known (c : Crossword) (vars : list Var.t) : Prop :=
  ∀ x y, x ∈ vars → y ∈ vars → x ≠ y → is_Some (overlaps c !! (x, y)).

(** ** The elimination count, as the specification words it *)

(** The number of words of a neighbor's domain whose character at the
    neighbor's overlap index differs from the character of [word] at the
    variable's overlap index. *)
Definition disagreements (ov : nat * nat) (word : string)
    (dn : list string) : nat :=
  List.length
    (filter (λ neighbor_word,
               String.get ov.2 neighbor_word ≠ String.get ov.1 word) dn).

(** The sum of these numbers over the unassigned neighbors of [var]. *)
Definition elimination_count (c : Crossword) (s : creator) (var : Var.t)
    (a : assignment) (word : string) : nat :=
  sum_list_with
    (λ neighbor,
       match overlaps c !! (var, neighbor), domains_of_x s !! neighbor with
       | Some (Some ov), Some dn => disagreements ov word dn
       | _, _ => 0
       end)
    (filter (λ neighbor, neighbor ∉ a.*1) (neighbors c var)).

(** Every variable has a domain, and its words have the variable's
    length: the state of the store after [enforce_node_consistency]. *)
Definition node_consistent (c : Crossword) (s : creator) : Prop :=
  ∀ v, v ∈ variables c →
    ∃ d, domains_of_x s !! v = Some d ∧
         ∀ w, w ∈ d → String.length w = Var.length v.

(** The indices of an overlap are positions inside the two slots. *)
Definition overlaps_in_range (c : Crossword) : Prop :=
  ∀ x y idx, overlaps c !! (x, y) = Some (Some idx) →
    idx.1 < Var.length x ∧ idx.2 < Var.length y.




(** [len(self.domains_of_x[x])], read off the store. *)
Definition domain_size (s : creator) (x : Var.t) : nat :=
  match domains_of_x s !! x with
  | Some d => List.length d
  | None => 0
  end.

(** A computation is state-free when its outcome is the same in every
    state and it hands the state back. *)
Definition state_free {A} (m : M A) : Prop := ∃ o, ∀ s, m s = (o, s).

(** One iteration of the degree tie-break loop of
    [select_unassigned_variable], as in [pick_by_degree]. *)
Definition degree_step (c : Crossword) (st : nat * option Var.t)
    (var : Var.t) : nat * option Var.t :=
  let degree := List.length (neighbors c var) in
  if decide (st.1 < degree) then (degree, Some var) else st.

(** ** [letter_grid] and [print]

    Besides [variables], [words] and [overlaps], these two methods read
    the grid attributes of the crossword: [height], [width] and
    [structure], the rows of which say which cells are open. *)

Record Grid := {
  height : nat;
  width : nat;
  structure : list (list bool)
}.

(** [letters[i][j] = ch]: either subscript out of range raises
    [IndexError].  The rows of [letters] are distinct lists, so only one
    cell changes. *)
Definition set_letter (letters : list (list (option ascii))) (i j : nat)
    (ch : ascii) : M (list (list (option ascii))) :=
  match letters !! i with
  | None => raise IndexError
  | Some row =>
      if decide (j < List.length row)
      then ret (<[i := <[j := Some ch]> row]> letters)
      else raise IndexError
  end.

(** The cell of the [k]-th letter of a variable. *)
Definition cell_of (variable : Var.t) (k : nat) : nat * nat :=
  (Var.i variable + (if decide (Var.direction variable = Var.DOWN) then k else 0),
   Var.j variable + (if decide (Var.direction variable = Var.ACROSS) then k else 0)).

(** The inner loop [for k in range(len(word))]. *)
Definition write_word (variable : Var.t) (word : string)
    (letters : list (list (option ascii))) : M (list (list (option ascii))) :=
  for_fold (seq 0 (String.length word)) letters (λ letters k,
    ch <- char_at word k ;;
    set_letter letters (cell_of variable k).1 (cell_of variable k).2 ch).

Definition letter_grid (g : Grid) (a : assignment)
    : M (list (list (option ascii))) :=
  for_fold a (replicate (height g) (replicate (width g) None))
    (λ letters item, write_word item.1 item.2 letters).

(** [l[k]] on a list, for a non-negative index. *)
Definition item_at {A} (l : list A) (k : nat) : M A :=
  match l !! k with
  | Some x => ret x
  | None => raise IndexError
  end.

(** The text that [print] writes for a blocked cell: the bytes of the
    string literal in the source, in UTF-8. *)
Definition block_text : string :=
  String (ascii_of_nat 195) (String (ascii_of_nat 162)
  (String (ascii_of_nat 226) (String (ascii_of_nat 128)
  (String (ascii_of_nat 147) (String (ascii_of_nat 203)
  (String (ascii_of_nat 134) EmptyString)))))).

(** [letters[i][j] or " "] *)
Definition letter_text (letter : option ascii) : string :=
  match letter with
  | Some ch => String ch EmptyString
  | None => " "
  end.

(** [print]: the result is what is written to the terminal, as the list
    of lines, each line being the list of the texts of its [print] calls
    (the call [print()] ends the line). *)
Definition print (g : Grid) (a : assignment) : M (list (list string)) :=
  letters <- letter_grid g a ;;
  comprehension (λ i,
    comprehension (λ j,
      structure_row <- item_at (structure g) i ;;
      open <- item_at structure_row j ;;
      if (open : bool) then
        letters_row <- item_at letters i ;;
        letter <- item_at letters_row j ;;
        ret (letter_text letter)
      else ret block_text) (seq 0 (width g))) (seq 0 (height g)).

(** ** What [letter_grid] is expected to hold *)

(** A word fits when the cells of all its letters are inside the grid. *)
Definition fits (g : Grid) (item : Var.t * string) : Prop :=
  Forall (λ k, (cell_of item.1 k).1 < height g ∧ (cell_of item.1 k).2 < width g)
         (seq 0 (String.length item.2)).

(** [letters] has [h] rows of [w] cells. *)
Definition grid_shape (h w : nat) (letters : list (list (option ascii))) : Prop :=
  List.length letters = h ∧ Forall (λ row, List.length row = w) letters.

(** The content of a cell, when the cell exists. *)
Definition cell_at (letters : list (list (option ascii))) (cell : nat * nat)
    : option (option ascii) :=
  letters !! cell.1 ≫= (λ row, row !! cell.2).

(** The letters an item writes, with their cells, in the order of the
    loop. *)
Definition word_writes (item : Var.t * string) : list (nat * nat * ascii) :=
  omap (λ k, (λ ch, (cell_of item.1 k, ch)) <$> String.get k item.2)
       (seq 0 (String.length item.2)).

(** All the writes of an assignment, in iteration order. *)
Definition writes (a : assignment) : list (nat * nat * ascii) :=
  a ≫= word_writes.

(** The letter written last to a cell, starting from [cur]. *)
Definition last_write (cell : nat * nat) (cur : option ascii)
    (ws : list (nat * nat * ascii)) : option ascii :=
  foldl (λ cur w, if decide (w.1 = cell) then Some w.2 else cur) cur ws.

(** A 2 by 2 grid whose lower right cell is blocked, and the assignment
    that fills its first row and its first column. *)
Definition corner_grid : Grid :=
  {| height := 2; width := 2; structure := [[true; true]; [true; false]] |}.

Definition corner_assignment : assignment :=
  [(across2, "AB"); (down2, "AD")].

(** The text of a cell in the output of [print], read off the structure
    and the writes of the assignment. *)
Definition cell_text (g : Grid) (a : assignment) (i j : nat) : string :=
  match structure g !! i ≫= (λ row, row !! j) with
  | Some true => letter_text (last_write (i, j) None (writes a))
  | _ => block_text
  end.


(** * Reasoning about the monad *)

Section monad_facts.
Context {A B : Type}.

Lemma bind_Ret (m : M A) (k : A → M B) s a s1 :
  m s = (Ret a, s1) → bind m k s = k a s1.
Proof. intros Hm. unfold bind. by rewrite Hm. Qed.

Lemma bind_Raise (m : M A) (k : A → M B) s e s1 :
  m s = (Raise e, s1) → bind m k s = (Raise e, s1).
Proof. intros Hm. unfold bind. by rewrite Hm. Qed.

Lemma bind_Ret_inv (m : M A) (k : A → M B) s b s2 :
  bind m k s = (Ret b, s2) →
  ∃ a s1, m s = (Ret a, s1) ∧ k a s1 = (Ret b, s2).
Proof.
  unfold bind. destruct (m s) as [[a|e|] s1]; intros H; try discriminate.
  by exists a, s1.
Qed.
End monad_facts.

Lemma read_only_run {A} (m : M A) s r s' :
  read_only m → m s = (r, s') → s' = s.
Proof. intros Hro Hm. specialize (Hro s). by rewrite Hm in Hro. Qed.

Lemma read_only_ret {A} (a : A) : read_only (ret a).
Proof. done. Qed.

Lemma read_only_raise {A} e : read_only (@raise A e).
Proof. done. Qed.

Lemma read_only_bind {A B} (m : M A) (k : A → M B) :
  read_only m → (∀ a, read_only (k a)) → read_only (bind m k).
Proof.
  intros Hm Hk s. unfold bind.
  destruct (m s) as [[a|e|] s1] eqn:E; simpl;
    apply (read_only_run _ _ _ _ Hm) in E; subst; [apply Hk|done..].
Qed.

Lemma read_only_domain v : read_only (domain v).
Proof. intros s. unfold domain. by destruct (_ !! _). Qed.

Lemma read_only_char_at w k : read_only (char_at w k).
Proof. unfold char_at. by destruct (String.get k w). Qed.

Lemma read_only_overlap_of c x y : read_only (overlap_of c x y).
Proof. unfold overlap_of. by destruct (_ !! _). Qed.

Lemma read_only_comprehension {A B} (f : A → M B) xs :
  (∀ x, read_only (f x)) → read_only (comprehension f xs).
Proof.
  intros Hf. induction xs as [|x xs IH]; simpl; [done|].
  apply read_only_bind; [done|]. intros b.
  apply read_only_bind; [done|]. intros bs. done.
Qed.

Lemma read_only_for_fold {A S} (xs : list A) (acc : S) body :
  (∀ acc x, read_only (body acc x)) → read_only (for_fold xs acc body).
Proof.
  intros Hb. revert acc. induction xs as [|x xs IH]; intros acc; simpl; [done|].
  apply read_only_bind; [done|]. intros acc'. apply IH.
Qed.

Lemma read_only_for_until {A R} (xs : list A) (body : A → M (option R)) :
  (∀ x, read_only (body x)) → read_only (for_until xs body).
Proof.
  intros Hb. induction xs as [|x xs IH]; simpl; [done|].
  apply read_only_bind; [done|]. intros [v|]; done.
Qed.

Create HintDb ro discriminated.
#[local] Hint Resolve read_only_ret read_only_raise read_only_domain
  read_only_char_at read_only_overlap_of : ro.

Ltac ro_step :=
  first
    [ solve [auto with ro]
    | apply read_only_bind; [|intros ?]
    | apply read_only_comprehension; intros ?
    | apply read_only_for_fold; intros ? ?
    | apply read_only_for_until; intros ?
    | match goal with
      | |- read_only (if ?b then _ else _) => destruct b
      | |- read_only (match ?o with _ => _ end) => destruct o
      end ].
Ltac ro := repeat ro_step.

Lemma read_only_support_marks ov x_word dy :
  read_only (support_marks ov x_word dy).
Proof. unfold support_marks. ro. Qed.

Lemma read_only_check_pair c item1 item2 : read_only (check_pair c item1 item2).
Proof. unfold check_pair. ro. Qed.
#[local] Hint Resolve read_only_support_marks read_only_check_pair : ro.

Lemma read_only_consistent c a : read_only (consistent c a).
Proof. unfold consistent. ro. Qed.

Lemma read_only_count_word overlap word amount neighbor_word :
  read_only (count_word overlap word amount neighbor_word).
Proof. unfold count_word. ro. Qed.
#[local] Hint Resolve read_only_count_word : ro.

Lemma read_only_count_neighbor c var a word amount neighbor :
  read_only (count_neighbor c var a word amount neighbor).
Proof. unfold count_neighbor. ro. Qed.
#[local] Hint Resolve read_only_count_neighbor : ro.

Lemma read_only_amount_eliminated c var a word :
  read_only (amount_eliminated c var a word).
Proof. unfold amount_eliminated. ro. Qed.
#[local] Hint Resolve read_only_amount_eliminated : ro.

Lemma read_only_order_domain_values c var a :
  read_only (order_domain_values c var a).
Proof. unfold order_domain_values. ro. Qed.

Lemma read_only_min_by_key l : read_only (min_by_key l).
Proof. unfold min_by_key. destruct l; auto with ro. Qed.
#[local] Hint Resolve read_only_min_by_key : ro.

Lemma read_only_select_unassigned_variable c a :
  read_only (select_unassigned_variable c a).
Proof. unfold select_unassigned_variable. ro. Qed.

Lemma never_diverges_ret {A} (a : A) : never_diverges (ret a).
Proof. done. Qed.

Lemma never_diverges_raise {A} e : never_diverges (@raise A e).
Proof. done. Qed.

Lemma never_diverges_bind {A B} (m : M A) (k : A → M B) :
  never_diverges m → (∀ a, never_diverges (k a)) → never_diverges (bind m k).
Proof.
  intros Hm Hk s. unfold bind. specialize (Hm s).
  destruct (m s) as [[a|e|] s1]; simpl in *; [apply Hk|done..].
Qed.

Lemma never_diverges_domain v : never_diverges (domain v).
Proof. intros s. unfold domain. by destruct (_ !! _). Qed.

Lemma never_diverges_remove_word v w : never_diverges (remove_word v w).
Proof. intros s. unfold remove_word. by destruct (_ !! _). Qed.

Lemma never_diverges_char_at w k : never_diverges (char_at w k).
Proof. unfold char_at. by destruct (String.get k w). Qed.

Lemma never_diverges_overlap_of c x y : never_diverges (overlap_of c x y).
Proof. unfold overlap_of. by destruct (_ !! _). Qed.

Lemma never_diverges_comprehension {A B} (f : A → M B) xs :
  (∀ x, never_diverges (f x)) → never_diverges (comprehension f xs).
Proof.
  intros Hf. induction xs as [|x xs IH]; simpl; [done|].
  apply never_diverges_bind; [done|]. intros b.
  apply never_diverges_bind; [done|]. intros bs. done.
Qed.

Lemma never_diverges_for_fold {A S} (xs : list A) (acc : S) body :
  (∀ acc x, never_diverges (body acc x)) → never_diverges (for_fold xs acc body).
Proof.
  intros Hb. revert acc. induction xs as [|x xs IH]; intros acc; simpl; [done|].
  apply never_diverges_bind; [done|]. intros acc'. apply IH.
Qed.

Lemma never_diverges_for_until {A R} (xs : list A) (body : A → M (option R)) :
  (∀ x, never_diverges (body x)) → never_diverges (for_until xs body).
Proof.
  intros Hb. induction xs as [|x xs IH]; simpl; [done|].
  apply never_diverges_bind; [done|]. intros [v|]; done.
Qed.

Lemma never_diverges_for_each {A} (xs : list A) body :
  (∀ x, never_diverges (body x)) → never_diverges (for_each xs body).
Proof.
  intros Hb. induction xs as [|x xs IH]; simpl; [done|].
  apply never_diverges_bind; [done|]. intros _. done.
Qed.

Create HintDb nd discriminated.
#[local] Hint Resolve never_diverges_ret never_diverges_raise
  never_diverges_domain never_diverges_remove_word never_diverges_char_at
  never_diverges_overlap_of : nd.

Ltac nd_step :=
  first
    [ solve [auto with nd]
    | apply never_diverges_bind; [|intros ?]
    | apply never_diverges_comprehension; intros ?
    | apply never_diverges_for_fold; intros ? ?
    | apply never_diverges_for_until; intros ?
    | apply never_diverges_for_each; intros ?
    | match goal with
      | |- never_diverges (if ?b then _ else _) => destruct b
      | |- never_diverges (match ?o with _ => _ end) => destruct o
      end ].
Ltac nd := repeat nd_step.

(** * [revise] as the code runs it *)

Lemma comprehension_length {A B} (f : A → M B) xs s l s' :
  comprehension f xs s = (Ret l, s') → List.length l = List.length xs.
Proof.
  revert s l s'. induction xs as [|x xs IH]; intros s l s'; simpl.
  - by intros [= <- _].
  - intros (b & s1 & _ & H)%bind_Ret_inv.
    apply bind_Ret_inv in H as (bs & s2 & Hbs & [= <- _]).
    simpl. f_equal. by eapply IH.
Qed.

Lemma revise_loop_unfold x y ov size0 todo revised :
  revise_loop x y ov size0 todo revised =
  (dx <- domain x ;;
   if bool_decide (List.length dx = size0) then
     match todo with
     | [] => ret revised
     | x_word :: todo' =>
         dy <- domain y ;;
         marks <- support_marks ov x_word dy ;;
         match marks with
         | [] =>
             remove_word x x_word ;;;
             revise_loop x y ov size0 todo' true
         | _ :: _ => revise_loop x y ov size0 todo' revised
         end
     end
   else raise RuntimeError).
Proof. by destruct todo. Qed.

(** Once the set has changed size, asking the iterator for its next
    element raises. *)
Lemma revise_loop_size_changed x y ov size0 todo revised s d :
  domains_of_x s !! x = Some d → List.length d ≠ size0 →
  revise_loop x y ov size0 todo revised s = (Raise RuntimeError, s).
Proof.
  intros Hd Hne. rewrite revise_loop_unfold. unfold bind, domain.
  rewrite Hd. by rewrite bool_decide_eq_false_2.
Qed.

Lemma remove_word_shrinks x w s d u s1 :
  domains_of_x s !! x = Some d → w ∈ d → remove_word x w s = (Ret u, s1) →
  ∃ d1, domains_of_x s1 !! x = Some d1 ∧ List.length d1 < List.length d.
Proof.
  intros Hd Hw. unfold remove_word. rewrite Hd. intros [= _ <-]. simpl.
  exists (set_remove w d). rewrite lookup_insert_eq. split; [done|].
  apply (length_filter_lt _ _ w); [done|]. by intros H.
Qed.

(** The loop of [revise] cannot both remove a word and run to its end: if
    it returns, it returns the flag it started with and the state it
    started in. *)
Lemma revise_loop_ret x y ov size0 todo :
  ∀ revised s b s',
    (∀ d, domains_of_x s !! x = Some d → List.length d = size0 → todo ⊆ d) →
    revise_loop x y ov size0 todo revised s = (Ret b, s') →
    s' = s ∧ b = revised.
Proof.
  induction todo as [|w todo IH]; intros revised s b s' Hsub;
    rewrite revise_loop_unfold;
    intros (dx & s1 & Hdx & H)%bind_Ret_inv.
  - pose proof (read_only_run _ _ _ _ (read_only_domain x) Hdx) as ->.
    case_bool_decide; [|done]. by injection H as <- <-.
  - pose proof (read_only_run _ _ _ _ (read_only_domain x) Hdx) as ->.
    assert (domains_of_x s !! x = Some dx) as Hlk.
    { unfold domain in Hdx. by destruct (_ !! _); simplify_eq. }
    case_bool_decide as Hsz; [|done].
    apply bind_Ret_inv in H as (dy & s2 & Hdy & H).
    pose proof (read_only_run _ _ _ _ (read_only_domain y) Hdy) as ->.
    apply bind_Ret_inv in H as (marks & s3 & Hm & H).
    pose proof (read_only_run _ _ _ _ (read_only_support_marks _ _ _) Hm) as ->.
    destruct marks as [|mk marks].
    + apply bind_Ret_inv in H as (u & s4 & Hrm & H).
      destruct (remove_word_shrinks x w s dx u s4) as (d1 & Hd1 & Hlt);
        [done| |done|].
      { apply (Hsub dx); [done..|]. apply list_elem_of_here. }
      rewrite (revise_loop_size_changed _ _ _ _ _ _ _ d1) in H; [done..|lia].
    + apply IH in H; [done|]. intros d Hd Hl.
      intros z Hz. apply (Hsub d Hd Hl). by apply list_elem_of_further.
Qed.

(** [revise] never reports a revision and never returns after changing
    the store. *)
Lemma revise_ret c x y s b s' :
  revise c x y s = (Ret b, s') → s' = s ∧ b = false.
Proof.
  unfold revise. intros (o & s1 & Ho & H)%bind_Ret_inv.
  pose proof (read_only_run _ _ _ _ (read_only_overlap_of c x y) Ho) as ->.
  destruct o as [ov|]; [|by injection H as <- <-].
  apply bind_Ret_inv in H as (dx & s2 & Hdx & H).
  pose proof (read_only_run _ _ _ _ (read_only_domain x) Hdx) as ->.
  apply revise_loop_ret in H; [done|].
  intros d Hd _. unfold domain in Hdx. rewrite Hd in Hdx. by simplify_eq.
Qed.

(** Without an overlap, [revise] is a no-op that reports no change. *)
Lemma revise_no_overlap c x y s :
  overlaps c !! (x, y) = Some None → revise c x y s = (Ret false, s).
Proof. intros Ho. unfold revise, bind, overlap_of. by rewrite Ho. Qed.

Lemma never_diverges_revise_loop x y ov size0 todo :
  ∀ revised, never_diverges (revise_loop x y ov size0 todo revised).
Proof.
  induction todo as [|w todo IH]; intros revised; rewrite revise_loop_unfold.
  - nd.
  - unfold support_marks. nd; apply IH.
Qed.

Lemma never_diverges_revise c x y : never_diverges (revise c x y).
Proof. unfold revise. nd. apply never_diverges_revise_loop. Qed.

(** * [ac3] as the code runs it *)

Lemma ac3_loop_ret c fuel :
  ∀ arcs s b s', ac3_loop c fuel arcs s = (Ret b, s') → s' = s ∧ b = true.
Proof.
  induction fuel as [|fuel IH]; intros [|[x y] arcs] s b s'; simpl;
    try by intros [= <- <-].
  intros (revised & s1 & Hrev & H)%bind_Ret_inv.
  apply revise_ret in Hrev as [-> ->]. by apply IH in H.
Qed.

Lemma ac3_loop_never_diverges c fuel :
  ∀ arcs s, List.length arcs ≤ fuel → (ac3_loop c fuel arcs s).1 ≠ Diverge.
Proof.
  induction fuel as [|fuel IH]; intros [|[x y] arcs] s Hlen; simpl in *;
    try done; try lia.
  unfold bind. pose proof (never_diverges_revise c x y s) as Hnd.
  destruct (revise c x y s) as [[revised|e|] s1] eqn:Hrev; simpl in *; try done.
  apply revise_ret in Hrev as [-> ->]. apply IH. lia.
Qed.

Lemma ac3_ret c arcs s b s' :
  ac3 c arcs s = (Ret b, s') → s' = s ∧ b = true.
Proof. apply ac3_loop_ret. Qed.

Lemma never_diverges_ac3 c arcs : never_diverges (ac3 c arcs).
Proof.
  intros s. apply ac3_loop_never_diverges. unfold ac3_budget. lia.
Qed.

(** * Stability of the store across [backtrack] *)

Lemma store_stable_read_only {A} (m : M A) : read_only m → store_stable m.
Proof. intros Hro s r s' Hm. by rewrite (read_only_run _ _ _ _ Hro Hm). Qed.

Lemma store_stable_bind {A B} (m : M A) (k : A → M B) :
  store_stable m → (∀ a, store_stable (k a)) → store_stable (bind m k).
Proof.
  intros Hm Hk s r s' (a & s1 & H1 & H2)%bind_Ret_inv.
  rewrite (Hk _ _ _ _ H2). by apply (Hm _ _ _ H1).
Qed.

Lemma store_stable_for_until {A R} (xs : list A) (body : A → M (option R)) :
  (∀ x, store_stable (body x)) → store_stable (for_until xs body).
Proof.
  intros Hb. induction xs as [|x xs IH]; simpl.
  - apply store_stable_read_only, read_only_ret.
  - apply store_stable_bind; [done|]. intros [v|]; [|done].
    apply store_stable_read_only, read_only_ret.
Qed.

Lemma store_stable_ac3 c arcs : store_stable (ac3 c arcs).
Proof. intros s r s' H. by apply ac3_ret in H as [-> _]. Qed.

Lemma store_stable_enter_backtrack : store_stable enter_backtrack.
Proof. by intros s r s' [= _ <-]. Qed.

Lemma store_stable_backtrack_branch recur c a var value :
  (∀ a', store_stable (recur a')) →
  store_stable (backtrack_branch recur c a var value).
Proof.
  intros Hrec. unfold backtrack_branch.
  apply store_stable_bind; [apply store_stable_ac3|]. intros _.
  apply store_stable_bind;
    [apply store_stable_read_only, read_only_consistent|].
  intros [|]; [|apply store_stable_read_only, read_only_ret].
  apply store_stable_bind; [done|]. intros result.
  apply store_stable_read_only, read_only_ret.
Qed.

Lemma store_stable_backtrack_loop recur c a var values :
  (∀ a', store_stable (recur a')) →
  store_stable (backtrack_loop recur c a var values).
Proof.
  intros Hrec. unfold backtrack_loop. apply store_stable_bind.
  - apply store_stable_for_until. intros value.
    by apply store_stable_backtrack_branch.
  - intros [r|]; apply store_stable_read_only, read_only_ret.
Qed.

Lemma store_stable_backtrack c fuel : ∀ a, store_stable (backtrack c fuel a).
Proof.
  induction fuel as [|fuel IH]; intros a; simpl; [done|].
  apply store_stable_bind; [apply store_stable_enter_backtrack|]. intros _.
  destruct (assignment_complete c a);
    [apply store_stable_read_only, read_only_ret|].
  apply store_stable_bind;
    [apply store_stable_read_only, read_only_select_unassigned_variable|].
  intros var. apply store_stable_bind;
    [apply store_stable_read_only, read_only_order_domain_values|].
  intros values. by apply store_stable_backtrack_loop.
Qed.

(** * Arc revision and propagation on concrete puzzles *)

(** C1: on the crossing of a 2-letter and a 3-letter slot with the words
    AB and CDE, the only word AB of Domain(across2) has no supporting word
    in Domain(down3) at the overlap (0, 0), so [revise] ought to remove it
    and answer true; the code answers false and removes nothing. *)
Theorem revise_keeps_unsupported_word :
  domains_of_x (node_consistent_store (crossing across2 down3 ["AB"; "CDE"]))
    !! across2 = Some ["AB"] ∧
  domains_of_x (node_consistent_store (crossing across2 down3 ["AB"; "CDE"]))
    !! down3 = Some ["CDE"] ∧
  overlaps (crossing across2 down3 ["AB"; "CDE"]) !! (across2, down3)
    = Some (Some (0, 0)) ∧
  (∀ wy, wy ∈ ["CDE"] → String.get 0 "AB" ≠ String.get 0 wy) ∧
  revise (crossing across2 down3 ["AB"; "CDE"]) across2 down3
    (node_consistent_store (crossing across2 down3 ["AB"; "CDE"]))
  = (Ret false, node_consistent_store (crossing across2 down3 ["AB"; "CDE"])).
Proof.
  split_and!; try by vm_compute.
  intros wy ->%list_elem_of_singleton. by vm_compute.
Qed.

(** C2: on the same puzzle the full [ac3] reports success although the
    word AB of Domain(across2) has no support in Domain(down3). *)
Theorem ac3_succeeds_without_arc_consistency :
  ac3 (crossing across2 down3 ["AB"; "CDE"]) None
    (node_consistent_store (crossing across2 down3 ["AB"; "CDE"]))
  = (Ret true, node_consistent_store (crossing across2 down3 ["AB"; "CDE"])) ∧
  overlaps (crossing across2 down3 ["AB"; "CDE"]) !! (across2, down3)
    = Some (Some (0, 0)) ∧
  domains_of_x (node_consistent_store (crossing across2 down3 ["AB"; "CDE"]))
    !! across2 = Some ["AB"] ∧
  domains_of_x (node_consistent_store (crossing across2 down3 ["AB"; "CDE"]))
    !! down3 = Some ["CDE"] ∧
  (∀ wy, wy ∈ ["CDE"] → String.get 0 "AB" ≠ String.get 0 wy).
Proof.
  split_and!; try by vm_compute.
  intros wy ->%list_elem_of_singleton. by vm_compute.
Qed.

(** C5: with the single word AB, node consistency leaves Domain(down3)
    empty; the full [ac3] then empties Domain(across2) and, instead of
    returning failure, stops with [RuntimeError]. *)
Theorem ac3_raises_when_domain_empties :
  domains_of_x (node_consistent_store (crossing across2 down3 ["AB"]))
    !! across2 = Some ["AB"] ∧
  (ac3 (crossing across2 down3 ["AB"]) None
     (node_consistent_store (crossing across2 down3 ["AB"]))).1
  = Raise RuntimeError ∧
  domains_of_x
    (ac3 (crossing across2 down3 ["AB"]) None
       (node_consistent_store (crossing across2 down3 ["AB"]))).2
    !! across2 = Some [].
Proof. split_and!; by vm_compute. Qed.

(** [ac3] has no run that returns failure. *)
Lemma ac3_never_fails c arcs s : (ac3 c arcs s).1 ≠ Ret false.
Proof.
  destruct (ac3 c arcs s) as [r s'] eqn:E. simpl. intros ->.
  by apply ac3_ret in E as [_ ?].
Qed.

(** * Variable selection on a concrete puzzle *)

Lemma pick_by_degree_unbound c ties :
  (∀ var, var ∈ ties → neighbors c var = []) → pick_by_degree c ties = (0, None).
Proof.
  unfold pick_by_degree. induction ties as [|var ties IH]; intros Hn; [done|].
  simpl. rewrite (Hn var) by apply list_elem_of_here. simpl.
  apply IH. intros v Hv. apply Hn. by apply list_elem_of_further.
Qed.

(** C8: two slots that do not meet, with equal domains, are tied on domain
    size and both have no neighbor; [select_unassigned_variable] then
    raises [UnboundLocalError] instead of returning one of them. *)
Theorem select_unassigned_variable_unbound :
  select_unassigned_variable (apart across2 lower2 ["AB"; "CD"]) []
    (init (apart across2 lower2 ["AB"; "CD"]))
  = (Raise UnboundLocalError, init (apart across2 lower2 ["AB"; "CD"])).
Proof. by vm_compute. Qed.

(** * Branch isolation in [backtrack] *)

(** C3: when the branch of a candidate value is explored and rejected, the
    store in which the loop goes on to the remaining candidates of the
    same variable is the store in which the rejected branch started. *)
Theorem backtrack_branch_isolation c fuel a var value rest s s1 :
  backtrack_branch (backtrack c fuel) c a var value s = (Ret None, s1) →
  domains_of_x s1 = domains_of_x s ∧
  backtrack_loop (backtrack c fuel) c a var (value :: rest) s
  = backtrack_loop (backtrack c fuel) c a var rest s1.
Proof.
  intros Hbranch. split.
  - eapply store_stable_backtrack_branch; [|done].
    apply store_stable_backtrack.
  - unfold backtrack_loop. simpl. unfold bind at 1 3.
    unfold bind at 1. by rewrite Hbranch.
Qed.

Lemma backtrack_branch_isolation_witness :
  ∃ s1,
    backtrack_branch (backtrack (crossing across2 down2 ["AB"; "CD"]) 2)
      (crossing across2 down2 ["AB"; "CD"]) [] across2 "AB"
      (init (crossing across2 down2 ["AB"; "CD"])) = (Ret None, s1) ∧
    domains_of_x s1
    = domains_of_x (init (crossing across2 down2 ["AB"; "CD"])) ∧
    backtrack_loop (backtrack (crossing across2 down2 ["AB"; "CD"]) 2)
      (crossing across2 down2 ["AB"; "CD"]) [] across2 ["AB"; "CD"]
      (init (crossing across2 down2 ["AB"; "CD"]))
    = backtrack_loop (backtrack (crossing across2 down2 ["AB"; "CD"]) 2)
        (crossing across2 down2 ["AB"; "CD"]) [] across2 ["CD"] s1.
Proof.
  eexists. split; [by vm_compute|].
  apply backtrack_branch_isolation. by vm_compute.
Defined.

(** * The worklist of [ac3] *)

Lemma elem_of_neighbors c x y :
  y ∈ neighbors c x ↔ y ∈ variables c ∧ y ≠ x ∧ has_overlap c x y = true.
Proof. unfold neighbors. rewrite list_elem_of_filter. tauto. Qed.

Lemma elem_of_all_arcs c x y :
  (x, y) ∈ all_arcs c ↔
  x ∈ variables c ∧ y ∈ variables c ∧ y ≠ x ∧ has_overlap c x y = true.
Proof.
  unfold all_arcs. rewrite list_elem_of_bind. split.
  - intros (var1 & (var2 & [= -> ->] & Hn)%list_elem_of_fmap & Hv).
    apply elem_of_neighbors in Hn. tauto.
  - intros (Hx & Hn). exists x. split; [|done].
    apply list_elem_of_fmap. exists y. split; [done|].
    by apply elem_of_neighbors.
Qed.

(** C10: an empty list of arcs is treated like no list at all: the
    worklist is rebuilt with every arc between overlapping variables, and
    the call is the full propagation.  The propagation step of [backtrack]
    for a variable without neighbors is such a call. *)
Theorem ac3_empty_arcs_runs_full_propagation c var s :
  (∀ x y, (x, y) ∈ worklist c (Some []) ↔
          x ∈ variables c ∧ y ∈ variables c ∧ y ≠ x ∧ has_overlap c x y = true) ∧
  ac3 c (Some []) s = ac3 c None s ∧
  (neighbors c var = [] →
   ac3 c (Some (backtrack_arcs c var)) s = ac3 c None s).
Proof.
  split_and!.
  - intros x y. apply elem_of_all_arcs.
  - done.
  - intros Hn. unfold backtrack_arcs. by rewrite Hn.
Qed.

Lemma ac3_empty_arcs_runs_full_propagation_witness :
  neighbors (crossing_and_lone across2 down3 lower2 ["AB"]) lower2 = [] ∧
  ac3 (crossing_and_lone across2 down3 lower2 ["AB"])
    (Some (backtrack_arcs (crossing_and_lone across2 down3 lower2 ["AB"]) lower2))
    (node_consistent_store (crossing_and_lone across2 down3 lower2 ["AB"]))
  = ac3 (crossing_and_lone across2 down3 lower2 ["AB"]) None
      (node_consistent_store (crossing_and_lone across2 down3 lower2 ["AB"])) ∧
  (ac3 (crossing_and_lone across2 down3 lower2 ["AB"]) None
     (node_consistent_store (crossing_and_lone across2 down3 lower2 ["AB"]))).1
  = Raise RuntimeError.
Proof.
  split_and!; [by vm_compute| |by vm_compute].
  apply (ac3_empty_arcs_runs_full_propagation
           (crossing_and_lone across2 down3 lower2 ["AB"]) lower2).
  by vm_compute.
Defined.

(** * Node consistency *)

Lemma filter_ext_elem {A} (P Q : A → Prop)
    `{!∀ x, Decision (P x), !∀ x, Decision (Q x)} (l : list A) :
  (∀ x, x ∈ l → P x ↔ Q x) → filter P l = filter Q l.
Proof.
  induction l as [|x l IH]; intros Hiff; [done|].
  rewrite !filter_cons, IH.
  - apply decide_ext, Hiff, list_elem_of_here.
  - intros z Hz. by apply Hiff, list_elem_of_further.
Qed.

Lemma filter_all {A} (P : A → Prop) `{!∀ x, Decision (P x)} (l : list A) :
  (∀ x, x ∈ l → P x) → filter P l = l.
Proof.
  induction l as [|x l IH]; intros HP; [done|].
  rewrite filter_cons_True by apply HP, list_elem_of_here.
  f_equal. apply IH. intros z Hz. by apply HP, list_elem_of_further.
Qed.

(** The inner loop over the copy of the domain. *)
Lemma node_consistency_inner var L copy :
  ∀ s d, domains_of_x s !! var = Some d →
    ∃ s', for_each copy (λ word,
            if bool_decide (String.length word ≠ L)
            then remove_word var word else ret tt) s = (Ret tt, s') ∧
          backtrack_calls s' = backtrack_calls s ∧
          domains_of_x s' =
            <[var := filter (λ w, String.length w = L ∨ w ∉ copy) d]>
              (domains_of_x s).
Proof.
  induction copy as [|w copy IH]; intros s d Hd.
  - exists s. split_and!; [done..|].
    rewrite filter_all; [by rewrite insert_id|].
    intros w _. right. apply not_elem_of_nil.
  - simpl. case_bool_decide as Hw.
    + destruct (IH {| domains_of_x := <[var := set_remove w d]> (domains_of_x s);
                      backtrack_calls := backtrack_calls s |} (set_remove w d))
        as (s' & Hrun & Hcalls & Hdom); [apply lookup_insert_eq|].
      exists s'. split_and!; [|done|].
      * unfold bind at 1. unfold remove_word at 1. by rewrite Hd.
      * rewrite Hdom. simpl. rewrite insert_insert_eq. f_equal.
        unfold set_remove. rewrite list_filter_filter.
        apply list_filter_iff. intros w'. rewrite not_elem_of_cons.
        split; [tauto|]. intros [?|[? ?]]; [|tauto].
        split; [by left|]. intros ->. done.
    + destruct (IH s d Hd) as (s' & Hrun & Hcalls & Hdom).
      exists s'. split_and!; [done..|].
      rewrite Hdom. f_equal. apply list_filter_iff. intros w'.
      rewrite not_elem_of_cons. split; [|tauto].
      intros [?|?]; [by left|]. destruct (decide (w' = w)) as [->|?];
        [by left|by right].
Qed.

(** One iteration of the outer loop. *)
Lemma node_consistency_step var s d :
  domains_of_x s !! var = Some d →
  ∃ s', (copy <- domain var ;;
         for_each copy (λ word,
           if bool_decide (String.length word ≠ Var.length var)
           then remove_word var word else ret tt)) s = (Ret tt, s') ∧
        backtrack_calls s' = backtrack_calls s ∧
        domains_of_x s' =
          <[var := filter (λ w, String.length w = Var.length var) d]>
            (domains_of_x s).
Proof.
  intros Hd.
  destruct (node_consistency_inner var (Var.length var) d s d Hd)
    as (s' & Hrun & Hcalls & Hdom).
  exists s'. split_and!; [|done|].
  - unfold bind, domain. by rewrite Hd.
  - rewrite Hdom. f_equal. apply filter_ext_elem. tauto.
Qed.

Lemma node_consistency_outer vs :
  ∀ s, (∀ v, v ∈ vs → is_Some (domains_of_x s !! v)) →
    ∃ s', for_each vs (λ var,
            copy <- domain var ;;
            for_each copy (λ word,
              if bool_decide (String.length word ≠ Var.length var)
              then remove_word var word else ret tt)) s = (Ret tt, s') ∧
          backtrack_calls s' = backtrack_calls s ∧
          ∀ v, domains_of_x s' !! v =
               if decide (v ∈ vs)
               then filter (λ w, String.length w = Var.length v)
                      <$> domains_of_x s !! v
               else domains_of_x s !! v.
Proof.
  induction vs as [|var vs IH]; intros s Hall.
  - exists s. split_and!; [done..|]. intros v.
    rewrite decide_False; [done|apply not_elem_of_nil].
  - destruct (Hall var) as [d Hd]; [apply list_elem_of_here|].
    destruct (node_consistency_step var s d Hd) as (s1 & Hrun1 & Hc1 & Hd1).
    destruct (IH s1) as (s' & Hrun & Hc & Hd').
    { intros v Hv. rewrite Hd1. destruct (decide (var = v)) as [->|?].
      - rewrite lookup_insert_eq. by eexists.
      - rewrite lookup_insert_ne by done. by apply Hall, list_elem_of_further. }
    exists s'. split_and!.
    + simpl. unfold bind at 1. by rewrite Hrun1.
    + congruence.
    + intros v. rewrite Hd', Hd1.
      destruct (decide (var = v)) as [->|Hne].
      * rewrite lookup_insert_eq, Hd, (decide_True _ _ (list_elem_of_here _ _)).
        case_decide; simpl; [|done].
        f_equal. by rewrite list_filter_filter_l.
      * rewrite lookup_insert_ne by done.
        destruct (decide (v ∈ vs)) as [Hin|Hnin].
        -- by rewrite decide_True by (by apply list_elem_of_further).
        -- rewrite decide_False; [done|]. by apply not_elem_of_cons.
Qed.

(** C7: [enforce_node_consistency] returns, and the domain it leaves for
    a variable v keeps exactly the words of the former domain whose length
    is [v.length]: every word that remains has that length, and every word
    that was removed has another length. *)
Theorem enforce_node_consistency_sound c s :
  (∀ v, v ∈ variables c → is_Some (domains_of_x s !! v)) →
  ∃ s', enforce_node_consistency c s = (Ret tt, s') ∧
    ∀ v d, v ∈ variables c → domains_of_x s !! v = Some d →
      ∃ d', domains_of_x s' !! v = Some d' ∧
            d' = filter (λ w, String.length w = Var.length v) d ∧
            (∀ w, w ∈ d' → String.length w = Var.length v) ∧
            (∀ w, w ∈ d → w ∉ d' → String.length w ≠ Var.length v).
Proof.
  intros Hall.
  destruct (node_consistency_outer (variables c) s Hall) as (s' & Hrun & _ & Hd).
  exists s'. split; [done|]. intros v d Hv Hlk.
  eexists. split_and!; [|done|..].
  - by rewrite Hd, decide_True, Hlk.
  - by intros w [? _]%list_elem_of_filter.
  - intros w Hw Hnot Hlen. apply Hnot. by apply list_elem_of_filter.
Qed.

Lemma init_lookup c v :
  v ∈ variables c → domains_of_x (init c) !! v = Some (words c).
Proof.
  unfold init. simpl. induction (variables c) as [|var vs IH]; intros Hv.
  - by apply not_elem_of_nil in Hv.
  - rewrite fmap_cons, list_to_map_cons. simpl.
    destruct (decide (var = v)) as [->|Hne]; [apply lookup_insert_eq|].
    rewrite lookup_insert_ne by done. apply IH.
    apply elem_of_cons in Hv as [->|Hv]; done.
Qed.

Lemma enforce_node_consistency_sound_witness :
  ∃ s',
    enforce_node_consistency (crossing across2 down3 ["AB"; "CDE"])
      (init (crossing across2 down3 ["AB"; "CDE"])) = (Ret tt, s') ∧
    ∀ v d,
      v ∈ variables (crossing across2 down3 ["AB"; "CDE"]) →
      domains_of_x (init (crossing across2 down3 ["AB"; "CDE"])) !! v = Some d →
      ∃ d', domains_of_x s' !! v = Some d' ∧
            d' = filter (λ w, String.length w = Var.length v) d ∧
            (∀ w, w ∈ d' → String.length w = Var.length v) ∧
            (∀ w, w ∈ d → w ∉ d' → String.length w ≠ Var.length v).
Proof.
  apply enforce_node_consistency_sound.
  intros v Hv. rewrite init_lookup by done. by eexists.
Defined.

(** * The validator [consistent] *)

Lemma char_at_Ret w k s ch s' :
  char_at w k s = (Ret ch, s') ↔ String.get k w = Some ch ∧ s' = s.
Proof.
  unfold char_at. destruct (String.get k w) as [ch'|]; simpl;
    unfold ret, raise; split; intros H; try (destruct H; done).
  - by injection H as -> ->.
  - destruct H as [[= ->] ->]. done.
  - done.
Qed.

Lemma for_until_None {A R} (xs : list A) (body : A → M (option R)) s :
  (∀ x, read_only (body x)) →
  for_until xs body s = (Ret None, s) ↔ ∀ x, x ∈ xs → body x s = (Ret None, s).
Proof.
  intros Hro. induction xs as [|x xs IH]; simpl.
  - split; [|done]. by intros _ x ?%not_elem_of_nil.
  - unfold bind at 1. destruct (body x s) as [[[v|]|e|] s1] eqn:E;
      pose proof (read_only_run _ _ _ _ (Hro x) E) as ->.
    + split; [done|]. intros H. specialize (H x (list_elem_of_here _ _)).
      congruence.
    + rewrite IH. split.
      * intros H z [->|Hz]%elem_of_cons; auto.
      * intros H z Hz. by apply H, list_elem_of_further.
    + split; [done|]. intros H. specialize (H x (list_elem_of_here _ _)).
      congruence.
    + split; [done|]. intros H. specialize (H x (list_elem_of_here _ _)).
      congruence.
Qed.

Lemma for_until_Some_inv {A R} (xs : list A) (body : A → M (option R)) s v s' :
  for_until xs body s = (Ret (Some v), s') →
  ∃ x s1 s2, x ∈ xs ∧ body x s1 = (Ret (Some v), s2).
Proof.
  revert s. induction xs as [|x xs IH]; intros s; simpl; [done|].
  intros ([v'|] & s1 & Hb & H)%bind_Ret_inv.
  - injection H as -> ->. exists x, s, s'. split; [apply list_elem_of_here|done].
  - destruct (IH _ H) as (z & t1 & t2 & Hz & Hbz).
    exists z, t1, t2. split; [by apply list_elem_of_further|done].
Qed.

Lemma check_pair_None c item1 item2 s :
  check_pair c item1 item2 s = (Ret None, s) ↔
  item1.1 = item2.1 ∨
  ∃ o, overlaps c !! (item1.1, item2.1) = Some o ∧
       ∀ idx, o = Some idx → agree_at idx item1.2 item2.2.
Proof.
  unfold check_pair. destruct (decide (item1.1 = item2.1)) as [Heq|Hne].
  { split; [by left|done]. }
  unfold bind at 1, overlap_of.
  destruct (overlaps c !! (item1.1, item2.1)) as [[idx|]|] eqn:Ho; simpl.
  - unfold bind, char_at, agree_at.
    destruct (String.get idx.1 item1.2) as [ch1|] eqn:E1; simpl.
    + destruct (String.get idx.2 item2.2) as [ch2|] eqn:E2; simpl.
      * case_bool_decide as Hch; simpl; split.
        -- done.
        -- intros [?|(o & [= <-] & Hag)]; [done|].
           destruct (Hag idx eq_refl) as (ch & ? & ?). congruence.
        -- intros _. right. eexists. split; [done|]. intros ? [= <-].
           exists ch1. split; [done|]. congruence.
        -- done.
      * split; [done|]. intros [?|(o & [= <-] & Hag)]; [done|].
        destruct (Hag idx eq_refl) as (ch & ? & ?). congruence.
    + split; [done|]. intros [?|(o & [= <-] & Hag)]; [done|].
      destruct (Hag idx eq_refl) as (ch & ? & ?). congruence.
  - split; [|done]. intros _. right. eexists. split; [done|]. done.
  - split; [done|]. by intros [?|(o & ? & _)].
Qed.

Lemma check_pair_Some c item1 item2 s v s' :
  check_pair c item1 item2 s = (Ret (Some v), s') → v = false.
Proof.
  unfold check_pair. destruct (decide _); [done|].
  intros ([idx|] & s1 & _ & H)%bind_Ret_inv; [|done].
  apply bind_Ret_inv in H as (c1 & s2 & _ & H).
  apply bind_Ret_inv in H as (c2 & s3 & _ & H).
  case_bool_decide; [|done]. by injection H as <- _.
Qed.

Lemma values_ok_spec a :
  ∀ values,
    values_ok values a = true ↔
    lengths_fit a ∧ NoDup a.*2 ∧ ∀ w, w ∈ a.*2 → w ∉ values.
Proof.
  induction a as [|[var val] a IH]; intros values; simpl.
  - split; [|done]. intros _. split_and!.
    + by intros ?? ?%not_elem_of_nil.
    + constructor.
    + by intros ? ?%not_elem_of_nil.
  - case_bool_decide as Hbad.
    + split; [done|]. intros (Hlen & Hnd & Hfresh). exfalso.
      destruct Hbad as [Hin|Hl].
      * by apply (Hfresh val); [apply list_elem_of_here|].
      * apply Hl, Hlen, list_elem_of_here.
    + rewrite IH.
      assert (val ∉ values) as Hnin by tauto.
      assert (String.length val = Var.length var) as Hlen.
      { destruct (decide (String.length val = Var.length var)); tauto. }
      split.
      * intros (Hfit & Hnd & Hfresh). split_and!.
        -- intros v w [[= -> ->]|Hin]%elem_of_cons; [done|by apply Hfit].
        -- constructor; [|done]. intros Hin.
           apply (Hfresh val Hin), elem_of_app. right. apply list_elem_of_here.
        -- intros w [->|Hin]%elem_of_cons; [done|].
           intros Hw. apply (Hfresh w Hin), elem_of_app. by left.
      * intros (Hfit & Hnd & Hfresh). apply NoDup_cons in Hnd as [Hval Hnd].
        split_and!; [|done|].
        -- intros v w Hin. by apply Hfit, list_elem_of_further.
        -- intros w Hin [Hw| ->%list_elem_of_singleton]%elem_of_app; [|done].
           by apply (Hfresh w); [apply list_elem_of_further|].
Qed.

(** When the overlaps agree, neither loop returns early. *)
Lemma overlap_loops_fall_through c a s :
  overlaps_known c a.*1 → overlaps_agree c a →
  for_until a (λ item1, for_until a (check_pair c item1)) s = (Ret None, s).
Proof.
  intros Hknown Hag.
  apply for_until_None.
  { intros x. apply read_only_for_until, read_only_check_pair. }
  intros [var1 val1] H1.
  apply for_until_None; [apply read_only_check_pair|]. intros [var2 val2] H2.
  apply check_pair_None. simpl.
  destruct (decide (var1 = var2)) as [?|Hne]; [by left|right].
  destruct (Hknown var1 var2) as [o Ho]; [| |done|].
  { by apply (list_elem_of_fmap_2 fst _ (var1, val1)). }
  { by apply (list_elem_of_fmap_2 fst _ (var2, val2)). }
  exists o. split; [done|]. intros idx ->. by eapply Hag.
Qed.

(** C6: [consistent] answers true exactly when the assigned words agree
    at every defined overlap of two distinct assigned variables, every
    assigned word has the length of its variable, and the assigned words
    are pairwise distinct; and it hands back the state it was given. *)
Theorem consistent_correct c a s :
  overlaps_known c a.*1 →
  (consistent c a s = (Ret true, s) ↔
   overlaps_agree c a ∧ lengths_fit a ∧ words_distinct a) ∧
  (consistent c a s).2 = s.
Proof.
  intros Hknown. split; [|apply read_only_consistent].
  assert (∀ x, read_only (for_until a (check_pair c x))) as Hro_in.
  { intros x. apply read_only_for_until, read_only_check_pair. }
  unfold consistent, bind.
  destruct (for_until a (λ item1, for_until a (check_pair c item1)) s)
    as [[[b|]|e|] s1] eqn:E.
  2:{ pose proof (read_only_run _ _ _ _
                    (read_only_for_until _ _ Hro_in) E) as ->.
      unfold ret. split.
      - intros [= Hok]. apply values_ok_spec in Hok as (Hfit & Hnd & _).
        split_and!; [|done..].
        intros var1 val1 var2 val2 idx H1 H2 Hne Ho.
        pose proof (proj1 (for_until_None _ _ _ Hro_in) E _ H1) as E1.
        pose proof (proj1 (for_until_None _ _ _ (read_only_check_pair c _))
                      E1 _ H2) as E2.
        apply check_pair_None in E2 as [?|(o & Ho' & Hag)]; [done|].
        simpl in *. apply Hag. congruence.
      - intros (_ & Hfit & Hnd). f_equal. f_equal. apply values_ok_spec.
        split_and!; [done..|]. intros w _. apply not_elem_of_nil. }
  all: split;
    [|intros (Hag & _ & _);
      rewrite (overlap_loops_fall_through c a s Hknown Hag) in E; done].
  - intros [= -> ->].
    apply for_until_Some_inv in E as (x & t1 & t2 & _ & E).
    apply for_until_Some_inv in E as (y & u1 & u2 & _ & E).
    by apply check_pair_Some in E.
  - done.
  - done.
Qed.

Lemma consistent_correct_witness :
  overlaps_known (crossing across2 down2 ["AB"; "AD"])
    [(across2, "AB"); (down2, "AD")].*1 ∧
  consistent (crossing across2 down2 ["AB"; "AD"])
    [(across2, "AB"); (down2, "AD")] (init (crossing across2 down2 ["AB"; "AD"]))
  = (Ret true, init (crossing across2 down2 ["AB"; "AD"])) ∧
  ((consistent (crossing across2 down2 ["AB"; "AD"])
      [(across2, "AB"); (down2, "AD")] (init (crossing across2 down2 ["AB"; "AD"]))
    = (Ret true, init (crossing across2 down2 ["AB"; "AD"])) ↔
    overlaps_agree (crossing across2 down2 ["AB"; "AD"])
      [(across2, "AB"); (down2, "AD")] ∧
    lengths_fit [(across2, "AB"); (down2, "AD")] ∧
    words_distinct [(across2, "AB"); (down2, "AD")]) ∧
   (consistent (crossing across2 down2 ["AB"; "AD"])
      [(across2, "AB"); (down2, "AD")]
      (init (crossing across2 down2 ["AB"; "AD"]))).2
   = init (crossing across2 down2 ["AB"; "AD"])).
Proof.
  assert (overlaps_known (crossing across2 down2 ["AB"; "AD"])
            [(across2, "AB"); (down2, "AD")].*1) as Hknown.
  { intros x y Hx Hy Hne. simpl in Hx, Hy.
    rewrite !elem_of_cons, elem_of_nil in Hx, Hy.
    destruct Hx as [->|[->|[]]], Hy as [->|[->|[]]]; try done;
      by vm_compute; eexists. }
  split; [done|]. split; [by vm_compute|].
  by apply consistent_correct.
Defined.

(** * Value ordering *)

Lemma get_is_Some w : ∀ k, k < String.length w → is_Some (String.get k w).
Proof.
  induction w as [|ch w IH]; intros k Hk; simpl in *; [lia|].
  destruct k as [|k]; [by eexists|]. apply IH. lia.
Qed.

Lemma comprehension_pure {A B} (f : A → M B) (g : A → B) xs s :
  (∀ x, x ∈ xs → f x s = (Ret (g x), s)) →
  comprehension f xs s = (Ret (g <$> xs), s).
Proof.
  induction xs as [|x xs IH]; intros Hf; simpl; [done|].
  unfold bind at 1. rewrite (Hf x) by apply list_elem_of_here.
  unfold bind at 1. rewrite IH; [done|].
  intros z Hz. by apply Hf, list_elem_of_further.
Qed.

Lemma count_word_run ov word cw nw cn amount s :
  String.get ov.1 word = Some cw → String.get ov.2 nw = Some cn →
  count_word (Some ov) word amount nw s
  = (Ret (if bool_decide (cn ≠ cw) then S amount else amount), s).
Proof.
  intros Hw Hcn. unfold count_word, bind, char_at.
  rewrite Hcn. simpl. by rewrite Hw.
Qed.

Lemma count_words_run ov word cw dn :
  String.get ov.1 word = Some cw →
  (∀ nw, nw ∈ dn → is_Some (String.get ov.2 nw)) →
  ∀ acc s, for_fold dn acc (count_word (Some ov) word) s
           = (Ret (acc + disagreements ov word dn), s).
Proof.
  intros Hw. unfold disagreements.
  induction dn as [|nw dn IH]; intros Hall acc s; simpl.
  - unfold ret. do 2 f_equal. lia.
  - destruct (Hall nw) as [cn Hcn]; [apply list_elem_of_here|].
    erewrite bind_Ret by (by eapply count_word_run).
    rewrite IH by (intros z Hz; by apply Hall, list_elem_of_further).
    rewrite filter_cons. do 2 f_equal.
    case_bool_decide as Hch; case_decide as Hget; simpl; try lia; congruence.
Qed.

Lemma count_neighbor_skip c var a word amount n s :
  n ∈ a.*1 → count_neighbor c var a word amount n s = (Ret amount, s).
Proof. intros Hin. unfold count_neighbor. by rewrite decide_True. Qed.

Lemma count_neighbor_run c var a word amount n s ov dn cw :
  n ∉ a.*1 →
  overlaps c !! (var, n) = Some (Some ov) →
  domains_of_x s !! n = Some dn →
  String.get ov.1 word = Some cw →
  (∀ nw, nw ∈ dn → is_Some (String.get ov.2 nw)) →
  count_neighbor c var a word amount n s
  = (Ret (amount + disagreements ov word dn), s).
Proof.
  intros Hnin Ho Hd Hw Hdn. unfold count_neighbor.
  rewrite decide_False by done.
  unfold bind at 1, overlap_of. rewrite Ho. simpl.
  unfold bind at 1, domain. rewrite Hd.
  by apply (count_words_run ov word cw).
Qed.

Lemma count_neighbors_run c var a word s ns :
  (∀ n, n ∈ ns → n ∉ a.*1 →
     ∃ ov dn, overlaps c !! (var, n) = Some (Some ov) ∧
              domains_of_x s !! n = Some dn ∧
              is_Some (String.get ov.1 word) ∧
              ∀ nw, nw ∈ dn → is_Some (String.get ov.2 nw)) →
  ∀ acc,
    for_fold ns acc (count_neighbor c var a word) s
    = (Ret (acc + sum_list_with
                    (λ neighbor,
                       match overlaps c !! (var, neighbor),
                             domains_of_x s !! neighbor with
                       | Some (Some ov), Some dn => disagreements ov word dn
                       | _, _ => 0
                       end)
                    (filter (λ neighbor, neighbor ∉ a.*1) ns)), s).
Proof.
  induction ns as [|n ns IH]; intros Hall acc; simpl.
  - unfold ret. do 2 f_equal. lia.
  - rewrite filter_cons. destruct (decide (n ∈ a.*1)) as [Hin|Hnin].
    + rewrite decide_False by tauto.
      erewrite bind_Ret by (by apply count_neighbor_skip).
      apply IH. intros z Hz. by apply Hall, list_elem_of_further.
    + rewrite decide_True by done.
      destruct (Hall n) as (ov & dn & Ho & Hd & [cw Hw] & Hdn);
        [apply list_elem_of_here|done|].
      erewrite bind_Ret by (by eapply count_neighbor_run).
      rewrite IH by (intros z Hz; by apply Hall, list_elem_of_further).
      simpl. rewrite Ho, Hd. do 2 f_equal. lia.
Qed.

Lemma amount_eliminated_run c var a word s :
  overlaps_in_range c → node_consistent c s →
  String.length word = Var.length var →
  amount_eliminated c var a word s
  = (Ret (elimination_count c s var a word), s).
Proof.
  intros Hrange Hnode Hlen. unfold amount_eliminated, elimination_count.
  rewrite count_neighbors_run; [done|].
  intros n (Hn & _ & Hov)%elem_of_neighbors _.
  unfold has_overlap in Hov.
  destruct (overlaps c !! (var, n)) as [[ov|]|] eqn:Ho; try done.
  destruct (Hnode n Hn) as (dn & Hdn & Hwords).
  destruct (Hrange _ _ _ Ho) as [H1 H2].
  exists ov, dn. split_and!; [done..| |].
  - apply get_is_Some. lia.
  - intros nw Hnw. apply get_is_Some. rewrite (Hwords nw Hnw). lia.
Qed.

Lemma insert_by_key_Permutation p l : insert_by_key p l ≡ₚ p :: l.
Proof.
  induction l as [|q l IH]; simpl; [done|].
  case_decide; [|done]. rewrite IH. apply Permutation_swap.
Qed.

Lemma sort_by_key_Permutation l : sort_by_key l ≡ₚ l.
Proof.
  unfold sort_by_key. induction l as [|p l IH]; simpl; [done|].
  by rewrite insert_by_key_Permutation, IH.
Qed.

Lemma insert_by_key_sorted p l :
  StronglySorted (λ p q : nat * string, p.1 ≤ q.1) l →
  StronglySorted (λ p q : nat * string, p.1 ≤ q.1) (insert_by_key p l).
Proof.
  induction 1 as [|q l Hsorted IH Hq]; simpl.
  - repeat constructor.
  - case_decide as Hlt.
    + constructor; [done|]. rewrite insert_by_key_Permutation.
      constructor; [lia|done].
    + constructor; [by constructor|]. constructor; [lia|].
      eapply Forall_impl; [done|]. simpl. intros z Hz. lia.
Qed.

Lemma sort_by_key_sorted l :
  StronglySorted (λ p q : nat * string, p.1 ≤ q.1) (sort_by_key l).
Proof.
  unfold sort_by_key. induction l as [|p l IH]; simpl; [constructor|].
  by apply insert_by_key_sorted.
Qed.

(** Sortedness of the tagged list carries over to the words when every
    tag is the count of its word. *)
Lemma sorted_tags_sorted_words (count : string → nat) (ps : list (nat * string)) :
  Forall (λ p, p.1 = count p.2) ps →
  StronglySorted (λ p q : nat * string, p.1 ≤ q.1) ps →
  StronglySorted (λ w1 w2, count w1 ≤ count w2) ps.*2.
Proof.
  intros Htag Hsorted. induction Hsorted as [|p ps Hsorted IH Hp]; simpl.
  - constructor.
  - apply Forall_cons in Htag as [Hp1 Htag]. constructor; [by apply IH|].
    apply Forall_fmap. rewrite Forall_forall in Hp, Htag |- *.
    intros q Hq. simpl. rewrite <- Hp1, <- (Htag q Hq). by apply Hp.
Qed.

(** C9: on a node-consistent store of a puzzle whose overlap indices lie
    inside the slots, [order_domain_values] returns a rearrangement of
    Domain(var) in which the elimination counts never decrease. *)
Theorem order_domain_values_sorted c var a s d :
  overlaps_in_range c → node_consistent c s → var ∈ variables c →
  domains_of_x s !! var = Some d →
  ∃ l, order_domain_values c var a s = (Ret l, s) ∧
       l ≡ₚ d ∧
       StronglySorted
         (λ w1 w2, elimination_count c s var a w1
                   ≤ elimination_count c s var a w2) l.
Proof.
  intros Hrange Hnode Hvar Hd.
  exists (sort_by_key ((λ w, (elimination_count c s var a w, w)) <$> d)).*2.
  split_and!.
  - unfold order_domain_values. unfold bind at 1, domain. rewrite Hd.
    erewrite bind_Ret; [done|].
    apply (comprehension_pure _ (λ w, (elimination_count c s var a w, w))).
    intros w Hw. erewrite bind_Ret; [done|].
    apply amount_eliminated_run; [done..|].
    destruct (Hnode var Hvar) as (d' & Hd' & Hlen). apply Hlen. congruence.
  - rewrite sort_by_key_Permutation, <- list_fmap_compose.
    by rewrite <- (list_fmap_id d) at 2.
  - apply sorted_tags_sorted_words; [|apply sort_by_key_sorted].
    rewrite sort_by_key_Permutation. apply Forall_fmap. by apply Forall_true.
Qed.

Lemma crossing_overlaps_in_range x y word_list :
  0 < Var.length x → 0 < Var.length y →
  overlaps_in_range (crossing x y word_list).
Proof.
  intros Hx Hy x' y' idx. unfold crossing. simpl.
  intros [[[= <- <-] [= <-]]|[_ H]]%lookup_insert_Some; [done|].
  apply lookup_insert_Some in H as [[[= <- <-] [= <-]]|[_ H]]; [done|].
  by rewrite lookup_empty in H.
Qed.

Lemma order_domain_values_sorted_witness :
  overlaps_in_range (crossing across2 down2 ["AB"; "CD"; "AD"]) ∧
  node_consistent (crossing across2 down2 ["AB"; "CD"; "AD"])
    (init (crossing across2 down2 ["AB"; "CD"; "AD"])) ∧
  order_domain_values (crossing across2 down2 ["AB"; "CD"; "AD"]) across2 []
    (init (crossing across2 down2 ["AB"; "CD"; "AD"]))
  = (Ret ["AB"; "AD"; "CD"], init (crossing across2 down2 ["AB"; "CD"; "AD"])) ∧
  ∃ l,
    order_domain_values (crossing across2 down2 ["AB"; "CD"; "AD"]) across2 []
      (init (crossing across2 down2 ["AB"; "CD"; "AD"]))
    = (Ret l, init (crossing across2 down2 ["AB"; "CD"; "AD"])) ∧
    l ≡ₚ ["AB"; "CD"; "AD"] ∧
    StronglySorted
      (λ w1 w2,
         elimination_count (crossing across2 down2 ["AB"; "CD"; "AD"])
           (init (crossing across2 down2 ["AB"; "CD"; "AD"])) across2 [] w1
         ≤ elimination_count (crossing across2 down2 ["AB"; "CD"; "AD"])
             (init (crossing across2 down2 ["AB"; "CD"; "AD"])) across2 [] w2) l.
Proof.
  assert (overlaps_in_range (crossing across2 down2 ["AB"; "CD"; "AD"])) as Hr.
  { apply crossing_overlaps_in_range; simpl; lia. }
  assert (node_consistent (crossing across2 down2 ["AB"; "CD"; "AD"])
            (init (crossing across2 down2 ["AB"; "CD"; "AD"]))) as Hn.
  { intros v Hv. rewrite init_lookup by done. eexists. split; [done|].
    simpl in *. rewrite !elem_of_cons, elem_of_nil in Hv. intros w Hw.
    rewrite !elem_of_cons, elem_of_nil in Hw.
    destruct Hv as [->|[->|[]]], Hw as [->|[->|[->|[]]]]; done. }
  split; [done|]. split; [done|]. split; [by vm_compute|].
  apply order_domain_values_sorted; [done..| |by vm_compute].
  apply list_elem_of_here.
Defined.

(** * The ghost counter *)


















(** * What [select_unassigned_variable] returns when it returns *)

Lemma domain_sizes_run xs :
  ∀ s l s',
    comprehension (λ var, d <- domain var ;; ret (List.length d, var)) xs s
    = (Ret l, s') →
    l = (λ x, (domain_size s x, x)) <$> xs ∧
    ∀ x, x ∈ xs → is_Some (domains_of_x s !! x).
Proof.
  induction xs as [|x xs IH]; intros s l s'; simpl.
  - intros [= <- _]. split; [done|]. by intros ? ?%not_elem_of_nil.
  - intros (p & s1 & Hp & H)%bind_Ret_inv.
    apply bind_Ret_inv in H as (ps & s2 & Hps & [= <- _]).
    apply bind_Ret_inv in Hp as (d & s3 & Hd & [= <- <-]).
    pose proof (read_only_run _ _ _ _ (read_only_domain x) Hd) as ->.
    unfold domain in Hd. destruct (domains_of_x s !! x) as [d'|] eqn:E; [|done].
    injection Hd as ->. apply IH in Hps as [-> Hall]. split.
    + f_equal. unfold domain_size. by rewrite E.
    + intros z [->|Hz]%elem_of_cons; [by eexists|by apply Hall].
Qed.

Lemma foldl_min_le (l : list (nat * Var.t)) :
  ∀ best,
    (foldl (λ best q, if decide (q.1 < best.1) then q else best) best l).1
      ≤ best.1 ∧
    ∀ p, p ∈ l →
      (foldl (λ best q, if decide (q.1 < best.1) then q else best) best l).1
        ≤ p.1.
Proof.
  induction l as [|q l IH]; intros best; simpl.
  - split; [done|]. by intros ? ?%not_elem_of_nil.
  - destruct (IH (if decide (q.1 < best.1) then q else best)) as [H1 H2].
    split.
    + etrans; [done|]. case_decide; simpl; lia.
    + intros p [->|Hp]%elem_of_cons; [|by apply H2].
      etrans; [done|]. case_decide; simpl; lia.
Qed.

Lemma min_by_key_le l s m s' :
  min_by_key l s = (Ret m, s') → ∀ p, p ∈ l → m.1 ≤ p.1.
Proof.
  destruct l as [|p0 l]; [done|]. simpl. intros [= <- _] p.
  destruct (foldl_min_le l p0) as [H1 H2].
  intros [->|Hp]%elem_of_cons; [done|by apply H2].
Qed.

Lemma for_fold_cons {A S} (x : A) xs (acc : S) body :
  for_fold (x :: xs) acc body = (acc' <- body acc x ;; for_fold xs acc' body).
Proof. done. Qed.

Lemma ties_run (k : nat) xs s :
  (∀ x, x ∈ xs → is_Some (domains_of_x s !! x)) →
  ∀ acc,
    for_fold xs acc (λ ties x,
      d <- domain x ;;
      ret (if decide (List.length d = k) then ties ++ [x] else ties)) s
    = (Ret (acc ++ filter (λ x, domain_size s x = k) xs), s).
Proof.
  induction xs as [|x xs IH]; intros Hall acc.
  - simpl. by rewrite app_nil_r.
  - destruct (Hall x) as [d Hd]; [apply list_elem_of_here|].
    rewrite for_fold_cons.
    erewrite bind_Ret; [|unfold bind, domain; by rewrite Hd].
    rewrite IH by (intros z Hz; by apply Hall, list_elem_of_further).
    assert (domain_size s x = List.length d) as Hsz.
    { unfold domain_size. by rewrite Hd. }
    rewrite filter_cons. destruct (decide (List.length d = k)) as [Hk|Hk].
    + rewrite decide_True by congruence. by rewrite <- app_assoc.
    + by rewrite decide_False by congruence.
Qed.

Lemma pick_by_degree_elem_of c ties :
  ∀ st v,
    (foldl (λ st var,
              let degree := List.length (neighbors c var) in
              if decide (st.1 < degree) then (degree, Some var) else st)
           st ties).2 = Some v →
    st.2 = Some v ∨ v ∈ ties.
Proof.
  induction ties as [|var ties IH]; intros st v; simpl; [by left|].
  intros [H|H]%IH; [|right; by apply list_elem_of_further].
  case_decide; [|by left]. simpl in H. injection H as ->.
  right. apply list_elem_of_here.
Qed.

(** A returned variable is unassigned and no unassigned variable has a
    smaller domain. *)
Lemma select_unassigned_variable_ret c a s var s' :
  select_unassigned_variable c a s = (Ret var, s') →
  var ∈ variables c ∧ (var ∉ a.*1) ∧ is_Some (domains_of_x s !! var) ∧
  ∀ v, v ∈ variables c → v ∉ a.*1 → domain_size s var ≤ domain_size s v.
Proof.
  unfold select_unassigned_variable.
  intros (l & s1 & Hl & H)%bind_Ret_inv.
  assert (s1 = s) as ->.
  { eapply read_only_run; [|done]. ro. }
  apply domain_sizes_run in Hl as [-> Hall].
  apply bind_Ret_inv in H as (m & s2 & Hm & H).
  pose proof (read_only_run _ _ _ _ (read_only_min_by_key _) Hm) as ->.
  pose proof (min_by_key_le _ _ _ _ Hm) as Hmin.
  rewrite (bind_Ret _ _ _ _ _ (ties_run m.1 _ s Hall [])) in H.
  simpl in H.
  assert (var ∈ filter (λ x, domain_size s x = m.1)
                  (filter (λ var, var ∉ a.*1) (variables c))) as Hvar.
  { case_decide.
    - destruct (pick_by_degree c _).2 as [v|] eqn:Hpick; [|done].
      injection H as -> _.
      apply pick_by_degree_elem_of in Hpick as [?|?]; done.
    - destruct (filter _ (filter _ _)) as [|v ties]; [done|].
      injection H as -> _. apply list_elem_of_here. }
  apply list_elem_of_filter in Hvar as [Hsize Hvar].
  pose proof Hvar as [Hun Hin]%list_elem_of_filter.
  split_and!; [done|done|by apply Hall|].
  intros v Hv Hvun. rewrite Hsize.
  apply (Hmin (domain_size s v, v)).
  apply list_elem_of_fmap. exists v. split; [done|].
  by apply list_elem_of_filter.
Qed.

Lemma never_diverges_select_unassigned_variable c a :
  never_diverges (select_unassigned_variable c a).
Proof.
  unfold select_unassigned_variable. nd.
  unfold min_by_key. nd.
Qed.

Lemma order_domain_values_empty c var a s :
  domains_of_x s !! var = Some [] →
  order_domain_values c var a s = (Ret [], s).
Proof.
  intros Hd. unfold order_domain_values, bind, domain. by rewrite Hd.
Qed.

(** * [solve] *)

Lemma backtrack_unfold c fuel a s :
  backtrack c (S fuel) a s
  = (if assignment_complete c a then ret (Some a)
     else var <- select_unassigned_variable c a ;;
          values <- order_domain_values c var a ;;
          backtrack_loop (backtrack c fuel) c a var values)
      {| domains_of_x := domains_of_x s;
         backtrack_calls := S (backtrack_calls s) |}.
Proof. done. Qed.

Lemma assignment_incomplete c v : v ∈ variables c → assignment_complete c [] = false.
Proof.
  intros Hv. apply bool_decide_eq_false. intros [_ Hsub].
  by apply Hsub, not_elem_of_nil in Hv.
Qed.

(** With an empty domain in the store, [backtrack] on the empty assignment
    is entered once, finds no candidate and gives up. *)
Lemma backtrack_dead_end c fuel s v :
  v ∈ variables c → domains_of_x s !! v = Some [] →
  ((backtrack c (S fuel) [] s).1 = Ret None ∨
   ∃ e, (backtrack c (S fuel) [] s).1 = Raise e) ∧
  backtrack_calls (backtrack c (S fuel) [] s).2 = S (backtrack_calls s).
Proof.
  intros Hv Hd. rewrite backtrack_unfold, (assignment_incomplete c v Hv).
  set (s1 := {| domains_of_x := domains_of_x s;
                backtrack_calls := S (backtrack_calls s) |}).
  pose proof (never_diverges_select_unassigned_variable c [] s1) as Hnd.
  destruct (select_unassigned_variable c [] s1) as [[var|e|] s2] eqn:Hsel;
    simpl in Hnd; [| |done];
    pose proof (read_only_run _ _ _ _
                  (read_only_select_unassigned_variable c []) Hsel) as ->.
  - rewrite (bind_Ret _ _ _ _ _ Hsel).
    apply select_unassigned_variable_ret in Hsel as (_ & _ & [d Hvar] & Hmin).
    specialize (Hmin v Hv (not_elem_of_nil _)).
    unfold domain_size in Hmin. subst s1. simpl in Hvar, Hmin.
    rewrite Hvar, Hd in Hmin.
    destruct d as [|w d]; [|simpl in Hmin; lia].
    rewrite (bind_Ret _ _ _ _ _
               (order_domain_values_empty c var []
                  {| domains_of_x := domains_of_x s;
                     backtrack_calls := S (backtrack_calls s) |} Hvar)).
    simpl. split; [by left|done].
  - rewrite (bind_Raise _ _ _ _ _ Hsel). simpl.
    split; [right; by eexists|done].
Qed.


(** * The recursion budget of [solve] is never used up *)

Lemma never_diverges_consistent c a : never_diverges (consistent c a).
Proof. unfold consistent, check_pair. nd. Qed.

Lemma never_diverges_order_domain_values c var a :
  never_diverges (order_domain_values c var a).
Proof.
  unfold order_domain_values, amount_eliminated, count_neighbor, count_word.
  nd.
Qed.

Lemma never_diverges_backtrack_loop recur c a var values :
  (∀ value, never_diverges (recur (assign a var value))) →
  never_diverges (backtrack_loop recur c a var values).
Proof.
  intros Hrec. unfold backtrack_loop. apply never_diverges_bind.
  - apply never_diverges_for_until. intros value. unfold backtrack_branch.
    apply never_diverges_bind; [apply never_diverges_ac3|]. intros _.
    apply never_diverges_bind; [apply never_diverges_consistent|].
    intros [|]; [|done]. apply never_diverges_bind; [apply Hrec|]. done.
  - intros [r|]; done.
Qed.

(** Assigning an unassigned variable of the puzzle leaves fewer
    unassigned variables. *)
Lemma assign_fewer_unassigned c a var value :
  var ∈ variables c → var ∉ a.*1 →
  List.length (filter (λ v, v ∉ (assign a var value).*1) (variables c))
  < List.length (filter (λ v, v ∉ a.*1) (variables c)).
Proof.
  intros Hvar Hun. unfold assign. rewrite decide_False by done.
  rewrite fmap_app. simpl.
  rewrite (list_filter_iff _ (λ v, v ≠ var ∧ v ∉ a.*1)).
  - rewrite <- list_filter_filter.
    apply (length_filter_lt _ _ var); [by apply list_elem_of_filter|].
    by intros H.
  - intros v. rewrite not_elem_of_app, list_elem_of_singleton. tauto.
Qed.

Lemma backtrack_never_diverges c fuel :
  ∀ a s,
    List.length (filter (λ v, v ∉ a.*1) (variables c)) < fuel →
    (backtrack c fuel a s).1 ≠ Diverge.
Proof.
  induction fuel as [|fuel IH]; intros a s Hlt; [lia|].
  rewrite backtrack_unfold. destruct (assignment_complete c a); [done|].
  set (s1 := {| domains_of_x := domains_of_x s;
                backtrack_calls := S (backtrack_calls s) |}).
  pose proof (never_diverges_select_unassigned_variable c a s1) as Hnd.
  destruct (select_unassigned_variable c a s1) as [[var|e|] s2] eqn:Hsel;
    simpl in Hnd; [| |done].
  - rewrite (bind_Ret _ _ _ _ _ Hsel).
    apply select_unassigned_variable_ret in Hsel as (Hvar & Hun & _).
    apply never_diverges_bind; [apply never_diverges_order_domain_values|].
    intros values. apply never_diverges_backtrack_loop.
    intros value s'. apply IH.
    pose proof (assign_fewer_unassigned c a var value Hvar Hun). lia.
  - by rewrite (bind_Raise _ _ _ _ _ Hsel).
Qed.

Lemma solve_never_diverges c : never_diverges (solve c).
Proof.
  unfold solve. apply never_diverges_bind.
  { unfold enforce_node_consistency. nd. }
  intros _. apply never_diverges_bind; [apply never_diverges_ac3|].
  intros _ s. apply backtrack_never_diverges.
  pose proof (length_filter (λ v, v ∉ ([] : assignment).*1) (variables c)). lia.
Qed.

(** * Further properties of [revise] *)

(** X1: a call of [revise] that returns has answered False and has left
    the whole state as it was. *)
Theorem revise_never_reports_revision c x y s b s' :
  revise c x y s = (Ret b, s') → b = false ∧ s' = s.
Proof. intros H. by apply revise_ret in H as [-> ->]. Qed.

Lemma revise_never_reports_revision_witness :
  revise (crossing across2 down3 ["AB"; "CDE"]) across2 down3
    (node_consistent_store (crossing across2 down3 ["AB"; "CDE"]))
  = (Ret false, node_consistent_store (crossing across2 down3 ["AB"; "CDE"])) ∧
  false = false ∧
  node_consistent_store (crossing across2 down3 ["AB"; "CDE"])
  = node_consistent_store (crossing across2 down3 ["AB"; "CDE"]).
Proof.
  split; [by vm_compute|].
  apply (revise_never_reports_revision
           (crossing across2 down3 ["AB"; "CDE"]) across2 down3).
  by vm_compute.
Defined.

(** X2: when the pair overlaps and Domain(y) is empty while Domain(x) is
    not, [revise] removes the first word of Domain(x) that the loop
    visits and then raises [RuntimeError]; the other domains are kept. *)
Theorem revise_empty_support_raises c x y ov s w dx :
  overlaps c !! (x, y) = Some (Some ov) →
  domains_of_x s !! x = Some (w :: dx) →
  domains_of_x s !! y = Some [] →
  revise c x y s
  = (Raise RuntimeError,
     {| domains_of_x := <[x := set_remove w (w :: dx)]> (domains_of_x s);
        backtrack_calls := backtrack_calls s |}).
Proof.
  intros Ho Hx Hy. unfold revise.
  unfold bind at 1, overlap_of. rewrite Ho. simpl.
  unfold bind at 1, domain at 1. rewrite Hx.
  rewrite revise_loop_unfold.
  unfold bind at 1, domain at 1. rewrite Hx.
  rewrite bool_decide_eq_true_2 by done.
  unfold bind at 1, domain at 1. rewrite Hy.
  unfold bind at 1. simpl.
  unfold bind at 1, remove_word at 1. rewrite Hx.
  apply (revise_loop_size_changed _ _ _ _ _ _ _ (set_remove w (w :: dx))).
  - simpl. apply lookup_insert_eq.
  - unfold set_remove. rewrite filter_cons_False by (by intros H).
    pose proof (length_filter (λ w', w' ≠ w) dx). simpl. lia.
Qed.

Lemma revise_empty_support_raises_witness :
  overlaps (crossing across2 down3 ["AB"]) !! (across2, down3)
  = Some (Some (0, 0)) ∧
  domains_of_x (node_consistent_store (crossing across2 down3 ["AB"]))
    !! across2 = Some ["AB"] ∧
  domains_of_x (node_consistent_store (crossing across2 down3 ["AB"]))
    !! down3 = Some [] ∧
  revise (crossing across2 down3 ["AB"]) across2 down3
    (node_consistent_store (crossing across2 down3 ["AB"]))
  = (Raise RuntimeError,
     {| domains_of_x :=
          <[across2 := set_remove "AB" ["AB"]]>
            (domains_of_x (node_consistent_store (crossing across2 down3 ["AB"])));
        backtrack_calls :=
          backtrack_calls (node_consistent_store (crossing across2 down3 ["AB"])) |}).
Proof.
  split_and!; [by vm_compute..|].
  apply (revise_empty_support_raises _ _ _ (0, 0)); by vm_compute.
Defined.

Lemma support_marks_run ov x_word dy s :
  is_Some (String.get ov.1 x_word) →
  (∀ wy, wy ∈ dy → is_Some (String.get ov.2 wy)) →
  ∃ marks, support_marks ov x_word dy s = (Ret marks, s) ∧
           List.length marks = List.length dy.
Proof.
  intros [cx Hcx] Hall.
  destruct (support_marks ov x_word dy s) as [[marks|e|] s1] eqn:E.
  - pose proof (read_only_run _ _ _ _ (read_only_support_marks _ _ _) E) as ->.
    exists marks. split; [done|]. by eapply comprehension_length.
  - exfalso. revert s s1 E. unfold support_marks.
    induction dy as [|wy dy IH]; intros s s1; simpl; [done|].
    destruct (Hall wy) as [cy Hcy]; [apply list_elem_of_here|].
    unfold bind at 1. unfold bind at 1, char_at at 1. rewrite Hcy. simpl.
    unfold bind at 1, char_at at 1. rewrite Hcx. simpl.
    unfold bind at 1.
    destruct (comprehension _ dy s) as [[ms|e'|] s2] eqn:E'; simpl; try done.
    intros [= -> ->]. eapply IH; [|done].
    intros z Hz. by apply Hall, list_elem_of_further.
  - exfalso. pose proof (never_diverges_comprehension
      (λ y_word, cy <- char_at y_word ov.2 ;; cx <- char_at x_word ov.1 ;;
                 ret (if bool_decide (cy = cx) then Some true else None)) dy) as H.
    unfold support_marks in E. specialize (H ltac:(intros; nd) s).
    by rewrite E in H.
Qed.

(** When Domain(y) is not empty and every index is in range, the loop of
    [revise] runs to its end without removing a word. *)
Lemma revise_loop_supported x y ov s dx wy dy todo :
  domains_of_x s !! x = Some dx →
  domains_of_x s !! y = Some (wy :: dy) →
  (∀ w, w ∈ todo → is_Some (String.get ov.1 w)) →
  (∀ w, w ∈ wy :: dy → is_Some (String.get ov.2 w)) →
  ∀ revised,
    revise_loop x y ov (List.length dx) todo revised s = (Ret revised, s).
Proof.
  intros Hx Hy Htodo Hdy.
  induction todo as [|w todo IH]; intros revised; rewrite revise_loop_unfold;
    unfold bind at 1, domain at 1; rewrite Hx;
    rewrite bool_decide_eq_true_2 by done; [done|].
  unfold bind at 1, domain at 1. rewrite Hy.
  destruct (support_marks_run ov w (wy :: dy) s) as (marks & Hm & Hlen);
    [by apply Htodo, list_elem_of_here|done|].
  rewrite (bind_Ret _ _ _ _ _ Hm).
  destruct marks as [|mk marks]; [done|].
  apply IH. intros z Hz. by apply Htodo, list_elem_of_further.
Qed.

Lemma revise_supported c x y ov s dx wy dy :
  overlaps c !! (x, y) = Some (Some ov) →
  domains_of_x s !! x = Some dx →
  domains_of_x s !! y = Some (wy :: dy) →
  (∀ w, w ∈ dx → is_Some (String.get ov.1 w)) →
  (∀ w, w ∈ wy :: dy → is_Some (String.get ov.2 w)) →
  revise c x y s = (Ret false, s).
Proof.
  intros Ho Hx Hy Hdx Hdy. unfold revise.
  unfold bind at 1, overlap_of. rewrite Ho. simpl.
  unfold bind at 1, domain at 1. rewrite Hx.
  by eapply revise_loop_supported.
Qed.

(** X3: when the pair overlaps, Domain(y) is not empty and the overlap
    indices are inside every word concerned, [revise] answers False and
    removes nothing, whether or not the letters agree. *)
Theorem revise_nonempty_support_noop c x y ov s dx wy dy :
  overlaps c !! (x, y) = Some (Some ov) →
  domains_of_x s !! x = Some dx →
  domains_of_x s !! y = Some (wy :: dy) →
  (∀ w, w ∈ dx → is_Some (String.get ov.1 w)) →
  (∀ w, w ∈ wy :: dy → is_Some (String.get ov.2 w)) →
  revise c x y s = (Ret false, s).
Proof. apply revise_supported. Qed.

Lemma revise_nonempty_support_noop_witness :
  revise (crossing across2 down3 ["AB"; "CDE"]) across2 down3
    (node_consistent_store (crossing across2 down3 ["AB"; "CDE"]))
  = (Ret false, node_consistent_store (crossing across2 down3 ["AB"; "CDE"])).
Proof.
  apply (revise_nonempty_support_noop _ _ _ (0, 0) _ ["AB"] "CDE" []);
    try by vm_compute.
  - intros w ->%list_elem_of_singleton. by eexists.
  - intros w ->%list_elem_of_singleton. by eexists.
Defined.

(** X4: a pair whose entry in [overlaps] is [None] is left alone with the
    answer False; a pair without any entry raises [KeyError].  Neither
    touches the state. *)
Theorem revise_without_overlap c x y s :
  match overlaps c !! (x, y) with
  | Some None => revise c x y s = (Ret false, s)
  | None => revise c x y s = (Raise KeyError, s)
  | Some (Some _) => True
  end.
Proof.
  destruct (overlaps c !! (x, y)) as [[ov|]|] eqn:Ho; [done|..];
    unfold revise, bind, overlap_of; by rewrite Ho.
Qed.

(** * Further properties of [ac3] *)

(** X5: a call of [ac3] that returns has answered True and has left the
    whole state as it was: propagation never reports failure and never
    prunes a domain on a run that completes. *)
Theorem ac3_returns_true_unchanged c arcs s b s' :
  ac3 c arcs s = (Ret b, s') → b = true ∧ s' = s.
Proof. intros H. by apply ac3_ret in H as [-> ->]. Qed.

Lemma ac3_returns_true_unchanged_witness :
  ac3 (crossing across2 down3 ["AB"; "CDE"]) None
    (node_consistent_store (crossing across2 down3 ["AB"; "CDE"]))
  = (Ret true, node_consistent_store (crossing across2 down3 ["AB"; "CDE"])) ∧
  true = true ∧
  node_consistent_store (crossing across2 down3 ["AB"; "CDE"])
  = node_consistent_store (crossing across2 down3 ["AB"; "CDE"]).
Proof.
  split; [by vm_compute|].
  apply (ac3_returns_true_unchanged
           (crossing across2 down3 ["AB"; "CDE"]) None).
  by vm_compute.
Defined.

Lemma ac3_loop_all_false c s :
  ∀ fuel arcs,
    List.length arcs ≤ fuel →
    (∀ x y, (x, y) ∈ arcs → revise c x y s = (Ret false, s)) →
    ac3_loop c fuel arcs s = (Ret true, s).
Proof.
  induction fuel as [|fuel IH]; intros [|[x y] arcs] Hlen Hall; simpl in *;
    try done; try lia.
  rewrite (bind_Ret _ _ _ _ _ (Hall x y (list_elem_of_here _ _))).
  apply IH; [lia|]. intros x' y' Hin. by apply Hall, list_elem_of_further.
Qed.

Lemma revise_on_consistent_store c x y s :
  overlaps_in_range c → node_consistent c s →
  (∀ v, v ∈ variables c → domains_of_x s !! v ≠ Some []) →
  x ∈ variables c → y ∈ variables c → is_Some (overlaps c !! (x, y)) →
  revise c x y s = (Ret false, s).
Proof.
  intros Hrange Hnode Hne Hx Hy [[ov|] Ho]; [|by apply revise_no_overlap].
  destruct (Hnode x Hx) as (dx & Hdx & Hlx).
  destruct (Hnode y Hy) as (dy & Hdy & Hly).
  destruct (Hrange _ _ _ Ho) as [H1 H2].
  destruct dy as [|wy dy]; [by destruct (Hne y Hy)|].
  apply (revise_supported c x y ov s dx wy dy); try done.
  - intros w Hw. apply get_is_Some. rewrite (Hlx w Hw). lia.
  - intros w Hw. apply get_is_Some. rewrite (Hly w Hw). lia.
Qed.

(** X6: on a store in which every variable has a non-empty domain of
    words of its own length, with overlap indices inside the slots, [ac3]
    answers True and changes nothing, for the full worklist as for any
    list of arcs between variables that have an [overlaps] entry. *)
Theorem ac3_noop_on_supported_store c arcs s :
  overlaps_in_range c → node_consistent c s →
  (∀ v, v ∈ variables c → domains_of_x s !! v ≠ Some []) →
  (∀ x y, (x, y) ∈ worklist c arcs →
          x ∈ variables c ∧ y ∈ variables c ∧ is_Some (overlaps c !! (x, y))) →
  ac3 c arcs s = (Ret true, s).
Proof.
  intros Hrange Hnode Hne Harcs. unfold ac3.
  apply ac3_loop_all_false; [unfold ac3_budget; lia|].
  intros x y (Hx & Hy & Ho)%Harcs. by apply revise_on_consistent_store.
Qed.

Lemma all_arcs_known c x y :
  (x, y) ∈ worklist c None →
  x ∈ variables c ∧ y ∈ variables c ∧ is_Some (overlaps c !! (x, y)).
Proof.
  simpl. intros (Hx & Hy & _ & Ho)%elem_of_all_arcs. split_and!; [done..|].
  unfold has_overlap in Ho. destruct (overlaps c !! (x, y)); [by eexists|done].
Qed.

Lemma node_consistent_init c :
  (∀ w, w ∈ words c → ∀ v, v ∈ variables c → String.length w = Var.length v) →
  node_consistent c (init c).
Proof.
  intros Hw v Hv. exists (words c). split; [by apply init_lookup|].
  intros w Hin. by apply Hw.
Qed.

Lemma ac3_noop_on_supported_store_witness :
  overlaps_in_range (crossing across2 down2 ["AB"; "CD"]) ∧
  node_consistent (crossing across2 down2 ["AB"; "CD"])
    (init (crossing across2 down2 ["AB"; "CD"])) ∧
  ac3 (crossing across2 down2 ["AB"; "CD"]) None
    (init (crossing across2 down2 ["AB"; "CD"]))
  = (Ret true, init (crossing across2 down2 ["AB"; "CD"])).
Proof.
  assert (overlaps_in_range (crossing across2 down2 ["AB"; "CD"])) as Hr.
  { apply crossing_overlaps_in_range; simpl; lia. }
  assert (node_consistent (crossing across2 down2 ["AB"; "CD"])
            (init (crossing across2 down2 ["AB"; "CD"]))) as Hn.
  { apply node_consistent_init. intros w Hw v Hv. simpl in Hw, Hv.
    rewrite !elem_of_cons, elem_of_nil in Hw.
    rewrite !elem_of_cons, elem_of_nil in Hv.
    destruct Hw as [->|[->|[]]], Hv as [->|[->|[]]]; done. }
  split; [done|]. split; [done|].
  apply ac3_noop_on_supported_store; [done..| |apply all_arcs_known].
  intros v Hv. rewrite init_lookup by done. done.
Defined.

(** * Further properties of [__init__] and [enforce_node_consistency] *)

(** X7: [__init__] gives every variable of the puzzle the whole word list
    and no other key a domain. *)
Theorem init_domains c v :
  domains_of_x (init c) !! v
  = if decide (v ∈ variables c) then Some (words c) else None.
Proof.
  case_decide as Hv; [by apply init_lookup|].
  unfold init. simpl. apply not_elem_of_list_to_map_1.
  rewrite <- list_fmap_compose. simpl.
  intros Hin. apply Hv. by rewrite list_fmap_id in Hin.
Qed.

Lemma node_consistency_keyerror vs :
  ∀ s v, v ∈ vs → domains_of_x s !! v = None →
    (for_each vs (λ var,
       copy <- domain var ;;
       for_each copy (λ word,
         if bool_decide (String.length word ≠ Var.length var)
         then remove_word var word else ret tt)) s).1 = Raise KeyError.
Proof.
  induction vs as [|var vs IH]; intros s v Hv Hnone.
  - by apply not_elem_of_nil in Hv.
  - destruct (domains_of_x s !! var) as [d|] eqn:Hd.
    + destruct (node_consistency_step var s d Hd) as (s1 & Hrun & _ & Hd1).
      simpl. unfold bind at 1. rewrite Hrun.
      apply (IH s1 v).
      * apply elem_of_cons in Hv as [->|Hv]; [congruence|done].
      * rewrite Hd1, lookup_insert_ne; [done|]. intros ->. congruence.
    + simpl. unfold bind at 1 2, domain. by rewrite Hd.
Qed.

(** X8: when some variable of the puzzle has no entry in [domains_of_x],
    [enforce_node_consistency] raises [KeyError]. *)
Theorem enforce_node_consistency_missing_domain c s v :
  v ∈ variables c → domains_of_x s !! v = None →
  (enforce_node_consistency c s).1 = Raise KeyError.
Proof. apply node_consistency_keyerror. Qed.

Lemma enforce_node_consistency_missing_domain_witness :
  (enforce_node_consistency (lone across2 ["AB"])
     {| domains_of_x := ∅; backtrack_calls := 0 |}).1 = Raise KeyError.
Proof.
  apply (enforce_node_consistency_missing_domain _ _ across2).
  - apply list_elem_of_here.
  - done.
Defined.

Lemma enforce_node_consistency_ret c s s1 :
  enforce_node_consistency c s = (Ret tt, s1) →
  backtrack_calls s1 = backtrack_calls s ∧
  ∀ v, domains_of_x s1 !! v =
       if decide (v ∈ variables c)
       then filter (λ w, String.length w = Var.length v) <$> domains_of_x s !! v
       else domains_of_x s !! v.
Proof.
  intros Hrun.
  destruct (node_consistency_outer (variables c) s) as (s' & Hrun' & Hc & Hd).
  - intros v Hv. destruct (domains_of_x s !! v) eqn:E; [by eexists|].
    pose proof (node_consistency_keyerror (variables c) s v Hv E) as H.
    unfold enforce_node_consistency in Hrun. by rewrite Hrun in H.
  - unfold enforce_node_consistency in Hrun. rewrite Hrun in Hrun'.
    by injection Hrun' as <-.
Qed.

Lemma creator_eq (s1 s2 : creator) :
  domains_of_x s1 = domains_of_x s2 → backtrack_calls s1 = backtrack_calls s2 →
  s1 = s2.
Proof. destruct s1, s2. simpl. by intros -> ->. Qed.

(** X9: [enforce_node_consistency] is idempotent: run on the state it
    has produced, it returns and changes nothing. *)
Theorem enforce_node_consistency_idempotent c s s1 :
  enforce_node_consistency c s = (Ret tt, s1) →
  enforce_node_consistency c s1 = (Ret tt, s1).
Proof.
  intros Hrun. pose proof (enforce_node_consistency_ret c s s1 Hrun) as [Hc Hd].
  destruct (node_consistency_outer (variables c) s1) as (s2 & Hrun2 & Hc2 & Hd2).
  - intros v Hv. rewrite Hd, decide_True by done.
    destruct (domains_of_x s !! v) eqn:E; [by eexists|].
    pose proof (node_consistency_keyerror (variables c) s v Hv E) as H.
    unfold enforce_node_consistency in Hrun. by rewrite Hrun in H.
  - unfold enforce_node_consistency. rewrite Hrun2. f_equal.
    apply creator_eq; [|done]. apply map_eq. intros v.
    rewrite Hd2. case_decide as Hv; [|done].
    rewrite Hd, decide_True by done.
    destruct (domains_of_x s !! v) as [d|]; simpl; [|done].
    f_equal. by rewrite list_filter_filter_l.
Qed.

Lemma enforce_node_consistency_idempotent_witness :
  enforce_node_consistency (crossing across2 down3 ["AB"; "CDE"])
    (node_consistent_store (crossing across2 down3 ["AB"; "CDE"]))
  = (Ret tt, node_consistent_store (crossing across2 down3 ["AB"; "CDE"])).
Proof.
  apply (enforce_node_consistency_idempotent _
           (init (crossing across2 down3 ["AB"; "CDE"]))).
  by vm_compute.
Defined.

(** X10: each domain that [__init__] builds is a copy of the word list,
    in whatever order the copy iterates.  From any such store
    [enforce_node_consistency] returns, the store it leaves is node
    consistent, and the members of the domain of a variable are exactly
    the words of the word list that have the variable's length. *)
Theorem node_consistency_established c s :
  (∀ v, v ∈ variables c →
     ∃ d, domains_of_x s !! v = Some d ∧ d ≡ₚ words c) →
  ∃ s', enforce_node_consistency c s = (Ret tt, s') ∧
        node_consistent c s' ∧
        ∀ v, v ∈ variables c →
          ∃ d', domains_of_x s' !! v = Some d' ∧
                ∀ w, w ∈ d' ↔ w ∈ words c ∧ String.length w = Var.length v.
Proof.
  intros Hcopies.
  destruct (node_consistency_outer (variables c) s) as (s' & Hrun & Hc & Hd).
  { intros v Hv. destruct (Hcopies v Hv) as (d & -> & _). by eexists. }
  exists s'. split; [done|]. split.
  - intros v Hv. destruct (Hcopies v Hv) as (d & Hlk & _).
    eexists. split; [by rewrite Hd, decide_True, Hlk|].
    by intros w [? _]%list_elem_of_filter.
  - intros v Hv. destruct (Hcopies v Hv) as (d & Hlk & Hperm).
    eexists. split; [by rewrite Hd, decide_True, Hlk|].
    intros w. rewrite list_elem_of_filter, Hperm. tauto.
Qed.

Lemma node_consistency_established_witness :
  ∃ s',
    enforce_node_consistency (crossing across2 down3 ["AB"; "CDE"])
      (init (crossing across2 down3 ["AB"; "CDE"])) = (Ret tt, s') ∧
    node_consistent (crossing across2 down3 ["AB"; "CDE"]) s' ∧
    ∀ v, v ∈ variables (crossing across2 down3 ["AB"; "CDE"]) →
      ∃ d', domains_of_x s' !! v = Some d' ∧
            ∀ w, w ∈ d' ↔
                 w ∈ words (crossing across2 down3 ["AB"; "CDE"]) ∧
                 String.length w = Var.length v.
Proof.
  apply node_consistency_established.
  intros v Hv. exists (words (crossing across2 down3 ["AB"; "CDE"])).
  split; [by apply init_lookup|done].
Defined.

(** * Further properties of [consistent] *)

Lemma state_free_ret {A} (a : A) : state_free (ret a).
Proof. by exists (Ret a). Qed.

Lemma state_free_raise {A} e : state_free (@raise A e).
Proof. by exists (Raise e). Qed.

Lemma state_free_bind {A B} (m : M A) (k : A → M B) :
  state_free m → (∀ a, state_free (k a)) → state_free (bind m k).
Proof.
  intros [[a|e|] Hm] Hk.
  - destruct (Hk a) as [o Ho]. exists o. intros s. unfold bind.
    by rewrite Hm, Ho.
  - exists (Raise e). intros s. unfold bind. by rewrite Hm.
  - exists Diverge. intros s. unfold bind. by rewrite Hm.
Qed.

Lemma state_free_char_at w k : state_free (char_at w k).
Proof.
  unfold char_at. destruct (String.get k w);
    [apply state_free_ret|apply state_free_raise].
Qed.

Lemma state_free_overlap_of c x y : state_free (overlap_of c x y).
Proof.
  unfold overlap_of. destruct (_ !! _);
    [apply state_free_ret|apply state_free_raise].
Qed.

Lemma state_free_for_until {A R} (xs : list A) (body : A → M (option R)) :
  (∀ x, state_free (body x)) → state_free (for_until xs body).
Proof.
  intros Hb. induction xs as [|x xs IH]; simpl; [apply state_free_ret|].
  apply state_free_bind; [done|]. intros [v|]; [apply state_free_ret|done].
Qed.

Lemma state_free_check_pair c item1 item2 : state_free (check_pair c item1 item2).
Proof.
  unfold check_pair. case_decide; [apply state_free_ret|].
  apply state_free_bind; [apply state_free_overlap_of|].
  intros [idx|]; [|apply state_free_ret].
  apply state_free_bind; [apply state_free_char_at|]. intros c1.
  apply state_free_bind; [apply state_free_char_at|]. intros c2.
  case_bool_decide; apply state_free_ret.
Qed.

Lemma state_free_consistent c a : state_free (consistent c a).
Proof.
  unfold consistent. apply state_free_bind.
  - apply state_free_for_until. intros item1.
    apply state_free_for_until. intros item2. apply state_free_check_pair.
  - intros [b|]; apply state_free_ret.
Qed.

(** X11: the verdict of [consistent], or the exception it raises, does
    not depend on the solver state: it never reads [domains_of_x]. *)
Theorem consistent_ignores_store c a s1 s2 :
  (consistent c a s1).1 = (consistent c a s2).1.
Proof.
  destruct (state_free_consistent c a) as [o Ho]. by rewrite !Ho.
Qed.

Lemma for_until_returns {A R} (xs : list A) (body : A → M (option R)) s :
  (∀ x, x ∈ xs → ∃ r, body x s = (Ret r, s)) →
  ∃ r, for_until xs body s = (Ret r, s).
Proof.
  induction xs as [|x xs IH]; intros Hb; simpl; [by eexists|].
  destruct (Hb x) as [r Hr]; [apply list_elem_of_here|].
  rewrite (bind_Ret _ _ _ _ _ Hr). destruct r as [v|]; [by eexists|].
  apply IH. intros z Hz. by apply Hb, list_elem_of_further.
Qed.

Lemma check_pair_returns c a item1 item2 s :
  overlaps_known c a.*1 → overlaps_in_range c → lengths_fit a →
  item1 ∈ a → item2 ∈ a →
  ∃ r, check_pair c item1 item2 s = (Ret r, s).
Proof.
  intros Hknown Hrange Hfit H1 H2. unfold check_pair.
  destruct item1 as [var1 val1], item2 as [var2 val2]. simpl.
  case_decide as Hne; [by eexists|].
  destruct (Hknown var1 var2) as [o Ho]; [| |done|].
  { by apply (list_elem_of_fmap_2 fst _ (var1, val1)). }
  { by apply (list_elem_of_fmap_2 fst _ (var2, val2)). }
  unfold bind at 1, overlap_of. rewrite Ho. simpl.
  destruct o as [idx|]; [|by eexists].
  destruct (Hrange _ _ _ Ho) as [Hi1 Hi2].
  destruct (get_is_Some val1 idx.1) as [ch1 Hc1];
    [rewrite (Hfit _ _ H1); lia|].
  destruct (get_is_Some val2 idx.2) as [ch2 Hc2];
    [rewrite (Hfit _ _ H2); lia|].
  unfold bind, char_at. rewrite Hc1. simpl. rewrite Hc2. simpl.
  case_bool_decide; by eexists.
Qed.

(** X12: on an assignment whose words have the lengths of their
    variables (overlap entries present and inside the slots),
    [consistent] returns a Boolean: no lookup or index raises. *)
Theorem consistent_returns_boolean c a s :
  overlaps_known c a.*1 → overlaps_in_range c → lengths_fit a →
  ∃ b, consistent c a s = (Ret b, s).
Proof.
  intros Hknown Hrange Hfit. unfold consistent.
  destruct (for_until_returns a
              (λ item1, for_until a (check_pair c item1)) s) as [r Hr].
  { intros item1 H1. apply for_until_returns. intros item2 H2.
    by eapply check_pair_returns. }
  rewrite (bind_Ret _ _ _ _ _ Hr). destruct r; by eexists.
Qed.

Lemma crossing_overlaps_known x y word_list :
  overlaps_known (crossing x y word_list) [x; y].
Proof.
  intros x' y' Hx Hy Hne. rewrite !elem_of_cons, elem_of_nil in Hx.
  rewrite !elem_of_cons, elem_of_nil in Hy. unfold crossing. simpl.
  destruct Hx as [->|[->|[]]], Hy as [->|[->|[]]]; try done.
  - rewrite lookup_insert_eq. by eexists.
  - destruct (decide ((x, y) = (y, x))) as [->|?];
      [rewrite lookup_insert_eq|rewrite lookup_insert_ne, lookup_insert_eq by done];
      by eexists.
Qed.

Lemma consistent_returns_boolean_witness :
  ∃ b,
    consistent (crossing across2 down2 ["AB"; "CD"])
      [(across2, "AB"); (down2, "CD")]
      (init (crossing across2 down2 ["AB"; "CD"]))
    = (Ret b, init (crossing across2 down2 ["AB"; "CD"])).
Proof.
  apply consistent_returns_boolean.
  - apply crossing_overlaps_known.
  - apply crossing_overlaps_in_range; simpl; lia.
  - intros var val Hin. rewrite !elem_of_cons, elem_of_nil in Hin.
    destruct Hin as [[= -> ->]|[[= -> ->]|[]]]; done.
Defined.

(** What a verdict of true says about the assignment. *)
Lemma consistent_true_inv c a s s' :
  consistent c a s = (Ret true, s') →
  overlaps_agree c a ∧ lengths_fit a ∧ words_distinct a.
Proof.
  unfold consistent. intros ([b|] & s1 & Hloops & H)%bind_Ret_inv.
  - injection H as -> _.
    apply for_until_Some_inv in Hloops as (x & t1 & t2 & _ & E).
    apply for_until_Some_inv in E as (y & u1 & u2 & _ & E).
    by apply check_pair_Some in E.
  - injection H as Hok _. apply values_ok_spec in Hok as (Hfit & Hnd & _).
    split_and!; [|done..].
    assert (∀ x, read_only (for_until a (check_pair c x))) as Hro_in.
    { intros x. apply read_only_for_until, read_only_check_pair. }
    pose proof (read_only_run _ _ _ _
                  (read_only_for_until _ _ Hro_in) Hloops) as ->.
    intros var1 val1 var2 val2 idx H1 H2 Hne Ho.
    pose proof (proj1 (for_until_None _ _ _ Hro_in) Hloops _ H1) as E1.
    pose proof (proj1 (for_until_None _ _ _ (read_only_check_pair c _))
                  E1 _ H2) as E2.
    apply check_pair_None in E2 as [?|(o & Ho' & Hag)]; [done|].
    simpl in *. apply Hag. congruence.
Qed.

(** * Further properties of the two heuristics *)

(** X13: [select_unassigned_variable] and [order_domain_values] hand back
    the solver state they were given, whatever their outcome. *)
Theorem heuristics_read_only c var a s :
  (select_unassigned_variable c a s).2 = s ∧
  (order_domain_values c var a s).2 = s.
Proof.
  split; [apply read_only_select_unassigned_variable
         |apply read_only_order_domain_values].
Qed.

Lemma sort_by_key_same_key (k : nat) l :
  Forall (λ p : nat * string, p.1 = k) l → sort_by_key l = l.
Proof.
  unfold sort_by_key. induction 1 as [|p l Hp Hl IH]; simpl; [done|].
  rewrite IH. destruct Hl as [|q l Hq Hl]; simpl; [done|].
  rewrite decide_False; [done|lia].
Qed.

Lemma amount_eliminated_all_assigned c var a word s ns :
  (∀ n, n ∈ ns → n ∈ a.*1) →
  ∀ acc, for_fold ns acc (count_neighbor c var a word) s = (Ret acc, s).
Proof.
  induction ns as [|n ns IH]; intros Hall acc; simpl; [done|].
  erewrite bind_Ret
    by (apply count_neighbor_skip, Hall, list_elem_of_here).
  apply IH. intros z Hz. by apply Hall, list_elem_of_further.
Qed.

(** X14: when every neighbor of [var] is assigned (in particular when
    [var] has no neighbor), [order_domain_values] returns Domain(var) in
    its iteration order: all counts are zero and the sort is stable. *)
Theorem order_domain_values_all_assigned c var a s d :
  domains_of_x s !! var = Some d →
  (∀ n, n ∈ neighbors c var → n ∈ a.*1) →
  order_domain_values c var a s = (Ret d, s).
Proof.
  intros Hd Hall. unfold order_domain_values.
  unfold bind at 1, domain. rewrite Hd.
  erewrite bind_Ret.
  2:{ apply (comprehension_pure _ (λ w, (0, w))). intros w _.
      erewrite bind_Ret; [done|].
      by apply amount_eliminated_all_assigned. }
  unfold ret. do 2 f_equal.
  rewrite (sort_by_key_same_key 0).
  - rewrite <- list_fmap_compose. apply list_fmap_id.
  - apply Forall_fmap. by apply Forall_true.
Qed.

Lemma order_domain_values_all_assigned_witness :
  order_domain_values (crossing across2 down2 ["CD"; "AB"]) across2
    [(down2, "AB")] (init (crossing across2 down2 ["CD"; "AB"]))
  = (Ret ["CD"; "AB"], init (crossing across2 down2 ["CD"; "AB"])).
Proof.
  apply order_domain_values_all_assigned; [by vm_compute|].
  intros n (Hn & Hne & _)%elem_of_neighbors. simpl in Hn.
  rewrite !elem_of_cons, elem_of_nil in Hn.
  destruct Hn as [->|[->|[]]]; [done|]. apply list_elem_of_here.
Defined.

(** X15: when [select_unassigned_variable] returns, the variable is a
    variable of the puzzle, is not assigned, has a domain, and no
    unassigned variable of the puzzle has a smaller domain. *)
Theorem select_unassigned_variable_minimal c a s var s' :
  select_unassigned_variable c a s = (Ret var, s') →
  var ∈ variables c ∧ (var ∉ a.*1) ∧ is_Some (domains_of_x s !! var) ∧
  ∀ v, v ∈ variables c → v ∉ a.*1 → domain_size s var ≤ domain_size s v.
Proof. apply select_unassigned_variable_ret. Qed.

Lemma select_unassigned_variable_minimal_witness :
  select_unassigned_variable (crossing across2 down3 ["AB"; "CD"; "CDE"]) []
    (node_consistent_store (crossing across2 down3 ["AB"; "CD"; "CDE"]))
  = (Ret down3, node_consistent_store (crossing across2 down3 ["AB"; "CD"; "CDE"])) ∧
  (down3 ∈ variables (crossing across2 down3 ["AB"; "CD"; "CDE"]) ∧
   (down3 ∉ ([] : assignment).*1) ∧
   is_Some (domains_of_x
              (node_consistent_store (crossing across2 down3 ["AB"; "CD"; "CDE"]))
              !! down3) ∧
   ∀ v, v ∈ variables (crossing across2 down3 ["AB"; "CD"; "CDE"]) →
        v ∉ ([] : assignment).*1 →
        domain_size
          (node_consistent_store (crossing across2 down3 ["AB"; "CD"; "CDE"])) down3
        ≤ domain_size
            (node_consistent_store (crossing across2 down3 ["AB"; "CD"; "CDE"])) v).
Proof.
  split; [by vm_compute|].
  apply (select_unassigned_variable_minimal _ _ _ _
           (node_consistent_store (crossing across2 down3 ["AB"; "CD"; "CDE"]))).
  by vm_compute.
Defined.

Lemma filter_none {A} (P : A → Prop) `{!∀ x, Decision (P x)} (l : list A) :
  (∀ x, x ∈ l → ¬ P x) → filter P l = [].
Proof.
  induction l as [|x l IH]; intros HP; [done|].
  rewrite filter_cons_False by apply HP, list_elem_of_here.
  apply IH. intros z Hz. by apply HP, list_elem_of_further.
Qed.

(** X16: when every variable of the puzzle is assigned,
    [select_unassigned_variable] raises [ValueError] (the minimum of an
    empty list). *)
Theorem select_unassigned_variable_none_left c a s :
  (∀ v, v ∈ variables c → v ∈ a.*1) →
  select_unassigned_variable c a s = (Raise ValueError, s).
Proof.
  intros Hall. unfold select_unassigned_variable.
  rewrite filter_none; [done|]. intros v Hv Hnot. by apply Hnot, Hall.
Qed.

Lemma select_unassigned_variable_none_left_witness :
  select_unassigned_variable (lone across2 ["AB"]) [(across2, "AB")]
    (init (lone across2 ["AB"]))
  = (Raise ValueError, init (lone across2 ["AB"])).
Proof.
  apply select_unassigned_variable_none_left.
  intros v Hv. simpl in *. done.
Defined.

Lemma domain_sizes_forward xs s :
  (∀ x, x ∈ xs → is_Some (domains_of_x s !! x)) →
  comprehension (λ var, d <- domain var ;; ret (List.length d, var)) xs s
  = (Ret ((λ x, (domain_size s x, x)) <$> xs), s).
Proof.
  intros Hall. apply comprehension_pure. intros x Hx.
  destruct (Hall x Hx) as [d Hd].
  unfold bind, domain, domain_size. by rewrite Hd.
Qed.

Lemma foldl_min_in (l : list (nat * Var.t)) :
  ∀ best,
    foldl (λ best q, if decide (q.1 < best.1) then q else best) best l
    ∈ best :: l.
Proof.
  induction l as [|q l IH]; intros best; simpl; [apply list_elem_of_here|].
  specialize (IH (if decide (q.1 < best.1) then q else best)).
  apply elem_of_cons in IH as [->|IH].
  - case_decide; [apply list_elem_of_further|]; apply list_elem_of_here.
  - by do 2 apply list_elem_of_further.
Qed.

(** The verdict of [select_unassigned_variable] once the set of
    unassigned variables is not empty and all its domains exist. *)
Lemma select_unassigned_variable_run c (a : assignment) s (p0 : nat * Var.t) l :
  (∀ x, x ∈ filter (λ var, var ∉ a.*1) (variables c) →
        is_Some (domains_of_x s !! x)) →
  (λ x, (domain_size s x, x)) <$> filter (λ var, var ∉ a.*1) (variables c)
  = p0 :: l →
  ∃ m ties,
    m = (foldl (λ best q, if decide (q.1 < best.1) then q else best) p0 l).1 ∧
    ties = filter (λ x, domain_size s x = m)
             (filter (λ var, var ∉ a.*1) (variables c)) ∧
    select_unassigned_variable c a s
    = (if decide (1 < List.length ties) then
         match (pick_by_degree c ties).2 with
         | Some var_to_be_assigned => ret var_to_be_assigned
         | None => raise UnboundLocalError
         end
       else
         match ties with
         | var_to_be_assigned :: _ => ret var_to_be_assigned
         | [] => raise IndexError
         end) s.
Proof.
  intros Hall Hl. eexists _, _. split; [done|]. split; [done|].
  unfold select_unassigned_variable.
  rewrite (bind_Ret _ _ _ _ _ (domain_sizes_forward _ s Hall)), Hl.
  unfold bind at 1. simpl.
  rewrite (bind_Ret _ _ _ _ _ (ties_run _ _ s Hall [])). done.
Qed.

Lemma min_key_is c (a : assignment) s (p0 : nat * Var.t) l (m : nat) :
  (λ x, (domain_size s x, x)) <$> filter (λ var, var ∉ a.*1) (variables c)
  = p0 :: l →
  (∀ v, v ∈ filter (λ var, var ∉ a.*1) (variables c) → m ≤ domain_size s v) →
  (∃ v, v ∈ filter (λ var, var ∉ a.*1) (variables c) ∧ domain_size s v = m) →
  (foldl (λ best q, if decide (q.1 < best.1) then q else best) p0 l).1 = m.
Proof.
  intros Hl Hmin (v & Hv & Hsz).
  pose proof (foldl_min_in l p0) as Hin.
  destruct (foldl_min_le l p0) as [Hle0 Hle].
  rewrite <- Hl in Hin. apply list_elem_of_fmap in Hin as (u & Hu & Hin).
  assert ((domain_size s v, v) ∈ p0 :: l) as Hvin.
  { rewrite <- Hl. apply list_elem_of_fmap. by exists v. }
  apply Nat.le_antisymm.
  - rewrite <- Hsz. apply elem_of_cons in Hvin as [<-|Hvin]; [done|].
    by apply (Hle _ Hvin).
  - rewrite Hu. simpl. by apply Hmin.
Qed.

(** X17: when at least two unassigned variables tie for the smallest
    domain and none of the tied variables has a neighbor,
    [select_unassigned_variable] raises [UnboundLocalError]. *)
Theorem select_unassigned_variable_unbound_tie c a s (m : nat) :
  (∀ v, v ∈ variables c → v ∉ a.*1 → is_Some (domains_of_x s !! v)) →
  (∀ v, v ∈ variables c → v ∉ a.*1 → m ≤ domain_size s v) →
  1 < List.length
        (filter (λ v, domain_size s v = m)
           (filter (λ var, var ∉ a.*1) (variables c))) →
  (∀ v, v ∈ variables c → v ∉ a.*1 → domain_size s v = m →
        neighbors c v = []) →
  select_unassigned_variable c a s = (Raise UnboundLocalError, s).
Proof.
  intros Hdom Hmin Hties Hdeg.
  destruct ((λ x, (domain_size s x, x)) <$>
            filter (λ var, var ∉ a.*1) (variables c)) as [|p0 l] eqn:Hl.
  { apply fmap_nil_inv in Hl. rewrite Hl in Hties. simpl in Hties. lia. }
  destruct (select_unassigned_variable_run c a s p0 l)
    as (m' & ties & Hm' & -> & ->); [|done|].
  { intros x [? ?]%list_elem_of_filter. by apply Hdom. }
  assert (m' = m) as ->.
  { rewrite Hm'. apply (min_key_is c a s); [done| |].
    - intros v [? ?]%list_elem_of_filter. by apply Hmin.
    - destruct (filter (λ v, domain_size s v = m) _) as [|v ties] eqn:E;
        [simpl in Hties; lia|].
      exists v.
      assert (v ∈ filter (λ v, domain_size s v = m)
                    (filter (λ var, var ∉ a.*1) (variables c))) as Hv.
      { rewrite E. apply list_elem_of_here. }
      by apply list_elem_of_filter in Hv as [? ?]. }
  rewrite decide_True by done.
  rewrite pick_by_degree_unbound; [done|].
  intros v [Hsz [? ?]%list_elem_of_filter]%list_elem_of_filter.
  by apply Hdeg.
Qed.

Lemma select_unassigned_variable_unbound_tie_witness :
  select_unassigned_variable (apart across2 lower2 ["AB"; "CD"]) []
    (init (apart across2 lower2 ["AB"; "CD"]))
  = (Raise UnboundLocalError, init (apart across2 lower2 ["AB"; "CD"])).
Proof.
  apply (select_unassigned_variable_unbound_tie _ _ _ 2).
  - intros v Hv _. rewrite init_lookup by done. by eexists.
  - intros v Hv _. unfold domain_size. by rewrite init_lookup.
  - vm_compute. lia.
  - intros v Hv _ _. simpl in Hv. rewrite !elem_of_cons, elem_of_nil in Hv.
    destruct Hv as [->|[->|[]]]; by vm_compute.
Defined.

Lemma pick_by_degree_fold c ties :
  pick_by_degree c ties = foldl (degree_step c) (0, None) ties.
Proof. done. Qed.

Lemma degree_step_spec c ties :
  ∀ st,
    (∀ t, t ∈ ties →
       List.length (neighbors c t) ≤ (foldl (degree_step c) st ties).1) ∧
    (foldl (degree_step c) st ties = st ∨
     ∃ u, foldl (degree_step c) st ties = (List.length (neighbors c u), Some u) ∧
          st.1 < List.length (neighbors c u)) ∧
    st.1 ≤ (foldl (degree_step c) st ties).1.
Proof.
  induction ties as [|t ties IH]; intros st; cbn [foldl].
  - split_and!; [by intros ? ?%not_elem_of_nil|by left|done].
  - destruct (IH (degree_step c st t)) as (Hall & Hres & Hle).
    assert (st.1 ≤ (degree_step c st t).1 ∧
            List.length (neighbors c t) ≤ (degree_step c st t).1) as [H1 H2].
    { unfold degree_step. case_decide; simpl; lia. }
    split_and!.
    + intros u [->|Hu]%elem_of_cons; [lia|by apply Hall].
    + destruct Hres as [Hres|(u & Hres & Hlt)].
      * rewrite Hres. unfold degree_step. case_decide; [|by left].
        right. by exists t.
      * right. exists u. split; [done|lia].
    + lia.
Qed.

Lemma two_members_length {A} (l : list A) x y :
  x ∈ l → y ∈ l → x ≠ y → 1 < List.length l.
Proof.
  destruct l as [|z [|z' l]]; simpl.
  - by intros ?%not_elem_of_nil.
  - intros ->%list_elem_of_singleton ->%list_elem_of_singleton. done.
  - lia.
Qed.

(** X18: when [select_unassigned_variable] returns a variable although
    another unassigned variable has a domain of the same size, the
    returned variable has at least one neighbor and no fewer neighbors
    than the other one. *)
Theorem select_unassigned_variable_degree c a s var s' v :
  select_unassigned_variable c a s = (Ret var, s') →
  v ∈ variables c → v ∉ a.*1 → v ≠ var →
  domain_size s v = domain_size s var →
  List.length (neighbors c v) ≤ List.length (neighbors c var) ∧
  0 < List.length (neighbors c var).
Proof.
  intros Hsel Hv Hvun Hne Hsz.
  pose proof (select_unassigned_variable_ret _ _ _ _ _ Hsel)
    as (Hvar & Hun & _ & Hmin).
  pose proof (read_only_run _ _ _ _
                (read_only_select_unassigned_variable c a) Hsel) as ->.
  assert (∀ x, x ∈ filter (λ var, var ∉ a.*1) (variables c) →
               is_Some (domains_of_x s !! x)) as Hall.
  { unfold select_unassigned_variable in Hsel.
    apply bind_Ret_inv in Hsel as (l & s1 & Hl & _).
    by apply domain_sizes_run in Hl as [_ Hall]. }
  assert (var ∈ filter (λ var, var ∉ a.*1) (variables c)) as HvarU
    by (by apply list_elem_of_filter).
  assert (v ∈ filter (λ var, var ∉ a.*1) (variables c)) as HvU
    by (by apply list_elem_of_filter).
  destruct ((λ x, (domain_size s x, x)) <$>
            filter (λ var, var ∉ a.*1) (variables c)) as [|p0 l] eqn:Hl.
  { apply fmap_nil_inv in Hl. rewrite Hl in HvarU.
    by apply not_elem_of_nil in HvarU. }
  destruct (select_unassigned_variable_run c a s p0 l Hall Hl)
    as (m & ties & Hm & Hties & Hrun).
  assert (m = domain_size s var) as ->.
  { rewrite Hm. apply (min_key_is c a s); [done| |by exists var].
    intros u [? ?]%list_elem_of_filter. by apply Hmin. }
  assert (var ∈ ties) as Hvart by (subst ties; by apply list_elem_of_filter).
  assert (v ∈ ties) as Hvt by (subst ties; by apply list_elem_of_filter).
  rewrite Hrun, decide_True in Hsel
    by (by apply (two_members_length ties v var)).
  destruct (pick_by_degree c ties).2 as [u|] eqn:Hpick; [|done].
  injection Hsel as ->.
  destruct (degree_step_spec c ties (0, None)) as (Hdeg & Hres & _).
  rewrite <- pick_by_degree_fold in Hdeg, Hres.
  destruct Hres as [Hres|(u & Hres & Hlt)].
  { rewrite Hres in Hpick. done. }
  rewrite Hres in Hpick, Hdeg. simpl in *. injection Hpick as ->.
  split; [by apply Hdeg|lia].
Qed.

Lemma select_unassigned_variable_degree_witness :
  select_unassigned_variable
    (crossing_and_lone across2 down2 lower2 ["AB"; "CD"]) []
    (init (crossing_and_lone across2 down2 lower2 ["AB"; "CD"]))
  = (Ret across2, init (crossing_and_lone across2 down2 lower2 ["AB"; "CD"])) ∧
  List.length (neighbors (crossing_and_lone across2 down2 lower2 ["AB"; "CD"]) lower2)
  ≤ List.length (neighbors (crossing_and_lone across2 down2 lower2 ["AB"; "CD"]) across2) ∧
  0 < List.length (neighbors (crossing_and_lone across2 down2 lower2 ["AB"; "CD"]) across2).
Proof.
  split; [by vm_compute|].
  apply (select_unassigned_variable_degree _ []
           (init (crossing_and_lone across2 down2 lower2 ["AB"; "CD"]))
           across2
           (init (crossing_and_lone across2 down2 lower2 ["AB"; "CD"]))
           lower2); try by vm_compute.
  - simpl. rewrite !elem_of_cons. tauto.
  - apply not_elem_of_nil.
Defined.

(** * What [backtrack] and [solve] return *)

Lemma for_until_Some_inv_stable {A R} (xs : list A)
    (body : A → M (option R)) :
  (∀ x, store_stable (body x)) →
  ∀ s v s',
    for_until xs body s = (Ret (Some v), s') →
    ∃ x s1 s2, x ∈ xs ∧ domains_of_x s1 = domains_of_x s ∧
               body x s1 = (Ret (Some v), s2).
Proof.
  intros Hb. induction xs as [|x xs IH]; intros s v s'; simpl; [done|].
  intros ([v'|] & s1 & Hx & H)%bind_Ret_inv.
  - injection H as -> ->. exists x, s, s'.
    split; [apply list_elem_of_here|done].
  - destruct (IH _ _ _ H) as (z & t1 & t2 & Hz & Hdom & Hbz).
    exists z, t1, t2. split; [by apply list_elem_of_further|].
    split; [|done]. rewrite Hdom. by apply (Hb x _ _ _ Hx).
Qed.

Lemma comprehension_tagged {T} (f : string → M T) d :
  ∀ s ps s',
    comprehension (λ word, amount <- f word ;; ret (amount, word)) d s
    = (Ret ps, s') →
    ps.*2 = d.
Proof.
  induction d as [|w d IH]; intros s ps s'; simpl.
  - by intros [= <- _].
  - intros (p & s1 & Hp & H)%bind_Ret_inv.
    apply bind_Ret_inv in H as (ps' & s2 & Hps & [= <- _]).
    apply bind_Ret_inv in Hp as (amount & s3 & _ & [= <- _]).
    simpl. f_equal. by eapply IH.
Qed.

(** The values that [order_domain_values] returns are a rearrangement of
    the domain. *)
Lemma order_domain_values_ret c var a s l s' :
  order_domain_values c var a s = (Ret l, s') →
  ∃ d, domains_of_x s !! var = Some d ∧ l ≡ₚ d.
Proof.
  unfold order_domain_values. intros (d & s1 & Hd & H)%bind_Ret_inv.
  apply bind_Ret_inv in H as (ps & s2 & Hps & [= <- _]).
  unfold domain in Hd. destruct (domains_of_x s !! var) as [d'|]; [|done].
  injection Hd as -> ->. exists d. split; [done|].
  rewrite sort_by_key_Permutation. by rewrite (comprehension_tagged _ _ _ _ _ Hps).
Qed.

Lemma assign_fresh (a : assignment) var value :
  var ∉ a.*1 → assign a var value = a ++ [(var, value)].
Proof. intros Hun. unfold assign. by rewrite decide_False. Qed.

(** What a solution returned by [backtrack] looks like. *)
Lemma backtrack_result c fuel :
  ∀ a s r s',
    backtrack c fuel a s = (Ret (Some r), s') →
    assignment_complete c r = true ∧
    ∃ ext, r = a ++ ext ∧
      (ext = [] ∨ ∃ s0, consistent c r s0 = (Ret true, s0)) ∧
      ∀ var value, (var, value) ∈ ext →
        var ∈ variables c ∧
        ∃ d, domains_of_x s !! var = Some d ∧ value ∈ d.
Proof.
  induction fuel as [|fuel IH]; intros a s r s'; [done|].
  rewrite backtrack_unfold.
  set (s1 := {| domains_of_x := domains_of_x s;
                backtrack_calls := S (backtrack_calls s) |}).
  destruct (assignment_complete c a) eqn:Hcomplete.
  { intros [= <- _]. split; [done|]. exists []. rewrite app_nil_r.
    split_and!; [done|by left|]. by intros ?? ?%not_elem_of_nil. }
  intros (var & s2 & Hsel & H)%bind_Ret_inv.
  pose proof (read_only_run _ _ _ _
                (read_only_select_unassigned_variable c a) Hsel) as ->.
  apply select_unassigned_variable_ret in Hsel as (Hvar & Hun & _ & _).
  apply bind_Ret_inv in H as (values & s2 & Hord & H).
  pose proof (read_only_run _ _ _ _
                (read_only_order_domain_values c var a) Hord) as ->.
  apply order_domain_values_ret in Hord as (d & Hd & Hperm).
  unfold backtrack_loop in H.
  apply bind_Ret_inv in H as ([res|] & s2 & Hloop & H); [|done].
  injection H as -> _.
  apply for_until_Some_inv_stable in Hloop
    as (value & t1 & t2 & Hvalue & Hdom & Hbranch).
  2:{ intros value. apply store_stable_backtrack_branch.
      apply store_stable_backtrack. }
  unfold backtrack_branch in Hbranch.
  apply bind_Ret_inv in Hbranch as (b & t3 & Hac3 & Hbranch).
  apply ac3_ret in Hac3 as [-> _].
  apply bind_Ret_inv in Hbranch as (ok & t3 & Hok & Hbranch).
  pose proof (read_only_run _ _ _ _ (read_only_consistent c _) Hok) as ->.
  destruct ok; [|done].
  apply bind_Ret_inv in Hbranch as (result & t3 & Hrec & Hbranch).
  destruct (truthy result) eqn:Htruthy; [|done].
  unfold ret in Hbranch. injection Hbranch as -> _.
  apply IH in Hrec as (Hcompl & ext & Hr & Hcons & Hwords).
  rewrite assign_fresh in Hr, Hok by done.
  split; [done|]. exists ((var, value) :: ext).
  split; [by rewrite Hr, <- app_assoc|]. split.
  - right. destruct Hcons as [->|Hcons]; [|done].
    rewrite app_nil_r in Hr. subst r. by exists t1.
  - intros var' value' [[= -> ->]|Hin]%elem_of_cons.
    + split; [done|]. exists d. split; [done|]. by rewrite <- Hperm.
    + destruct (Hwords _ _ Hin) as (Hv' & d' & Hd' & Hin').
      split; [done|]. exists d'. split; [|done].
      by rewrite <- Hd', Hdom.
Qed.

(** X19: a solution returned by [backtrack] extends the assignment it was
    given: the given items come first, unchanged, and every added item
    maps a variable of the puzzle to a word of that variable's domain. *)
Theorem backtrack_extends_assignment c fuel a s r s' :
  backtrack c fuel a s = (Ret (Some r), s') →
  ∃ ext, r = a ++ ext ∧
    ∀ var value, (var, value) ∈ ext →
      var ∈ variables c ∧ ∃ d, domains_of_x s !! var = Some d ∧ value ∈ d.
Proof.
  intros (_ & ext & Hr & _ & Hwords)%backtrack_result. by exists ext.
Qed.

Lemma backtrack_extends_assignment_witness :
  backtrack (crossing across2 down2 ["AB"; "AD"]) 3 []
    (init (crossing across2 down2 ["AB"; "AD"]))
  = (Ret (Some [(across2, "AB"); (down2, "AD")]),
     (backtrack (crossing across2 down2 ["AB"; "AD"]) 3 []
        (init (crossing across2 down2 ["AB"; "AD"]))).2) ∧
  ∃ ext, [(across2, "AB"); (down2, "AD")] = [] ++ ext ∧
    ∀ var value, (var, value) ∈ ext →
      var ∈ variables (crossing across2 down2 ["AB"; "AD"]) ∧
      ∃ d, domains_of_x (init (crossing across2 down2 ["AB"; "AD"])) !! var
           = Some d ∧ value ∈ d.
Proof.
  split; [by vm_compute|].
  apply (backtrack_extends_assignment
           (crossing across2 down2 ["AB"; "AD"]) 3 []
           (init (crossing across2 down2 ["AB"; "AD"]))
           [(across2, "AB"); (down2, "AD")]
           (backtrack (crossing across2 down2 ["AB"; "AD"]) 3 []
              (init (crossing across2 down2 ["AB"; "AD"]))).2).
  by vm_compute.
Defined.

(** X20: a solution returned by [backtrack] is complete, and unless it is
    the assignment that was passed in, [consistent] answers true on it. *)
Theorem backtrack_result_checked c fuel a s r s' :
  backtrack c fuel a s = (Ret (Some r), s') →
  assignment_complete c r = true ∧
  (r = a ∨ ∀ s0, consistent c r s0 = (Ret true, s0)).
Proof.
  intros (Hcompl & ext & Hr & Hcons & _)%backtrack_result.
  split; [done|]. destruct Hcons as [->|[s0 Hcons]].
  - left. by rewrite app_nil_r in Hr.
  - right. intros s1. destruct (state_free_consistent c r) as [o Ho].
    rewrite Ho in Hcons |- *. by injection Hcons as ->.
Qed.

Lemma backtrack_result_checked_witness :
  backtrack (crossing across2 down2 ["AB"; "AD"]) 3 []
    (init (crossing across2 down2 ["AB"; "AD"]))
  = (Ret (Some [(across2, "AB"); (down2, "AD")]),
     (backtrack (crossing across2 down2 ["AB"; "AD"]) 3 []
        (init (crossing across2 down2 ["AB"; "AD"]))).2) ∧
  assignment_complete (crossing across2 down2 ["AB"; "AD"])
    [(across2, "AB"); (down2, "AD")] = true ∧
  ([(across2, "AB"); (down2, "AD")] = [] ∨
   ∀ s0, consistent (crossing across2 down2 ["AB"; "AD"])
           [(across2, "AB"); (down2, "AD")] s0 = (Ret true, s0)).
Proof.
  split; [by vm_compute|].
  apply (backtrack_result_checked
           (crossing across2 down2 ["AB"; "AD"]) 3 []
           (init (crossing across2 down2 ["AB"; "AD"]))
           [(across2, "AB"); (down2, "AD")]
           (backtrack (crossing across2 down2 ["AB"; "AD"]) 3 []
              (init (crossing across2 down2 ["AB"; "AD"]))).2).
  by vm_compute.
Defined.

Lemma solve_inv c s r s' :
  solve c s = (Ret r, s') →
  ∃ s1, enforce_node_consistency c s = (Ret tt, s1) ∧
        backtrack c (S (List.length (variables c))) [] s1 = (Ret r, s').
Proof.
  unfold solve. intros ([] & s1 & Henc & H)%bind_Ret_inv.
  apply bind_Ret_inv in H as (b & s2 & Hac3 & H).
  apply ac3_ret in Hac3 as [-> _]. by exists s1.
Qed.

(** X21: every assignment that [solve] returns after [__init__] is
    complete, its words agree at every overlap of two of its variables,
    each word has the length of its variable, the words are pairwise
    distinct, and each of them comes from the word list. *)
Theorem solve_sound c r s' :
  solve c (init c) = (Ret (Some r), s') →
  assignment_complete c r = true ∧
  overlaps_agree c r ∧ lengths_fit r ∧ words_distinct r ∧
  ∀ var value, (var, value) ∈ r → value ∈ words c.
Proof.
  intros (s1 & Henc & Hbt)%solve_inv.
  apply backtrack_result in Hbt as (Hcompl & ext & Hr & Hcons & Hwords).
  simpl in Hr. subst ext. split; [done|].
  assert (overlaps_agree c r ∧ lengths_fit r ∧ words_distinct r)
    as (? & ? & ?).
  { destruct Hcons as [->|[s0 Hcons]]; [|by eapply consistent_true_inv].
    by apply (consistent_true_inv c [] (init c) (init c)). }
  split_and!; [done..|].
  intros var value (Hvar & d & Hd & Hin)%Hwords.
  pose proof (enforce_node_consistency_ret c _ _ Henc) as [_ Hlk].
  rewrite Hlk, decide_True, init_lookup in Hd by done.
  injection Hd as <-. by apply list_elem_of_filter in Hin as [_ ?].
Qed.

Lemma solve_sound_witness :
  solve (crossing across2 down2 ["AB"; "AD"])
    (init (crossing across2 down2 ["AB"; "AD"]))
  = (Ret (Some [(across2, "AB"); (down2, "AD")]),
     (solve (crossing across2 down2 ["AB"; "AD"])
        (init (crossing across2 down2 ["AB"; "AD"]))).2) ∧
  assignment_complete (crossing across2 down2 ["AB"; "AD"])
    [(across2, "AB"); (down2, "AD")] = true ∧
  overlaps_agree (crossing across2 down2 ["AB"; "AD"])
    [(across2, "AB"); (down2, "AD")] ∧
  lengths_fit [(across2, "AB"); (down2, "AD")] ∧
  words_distinct [(across2, "AB"); (down2, "AD")] ∧
  ∀ var value, (var, value) ∈ [(across2, "AB"); (down2, "AD")] →
    value ∈ words (crossing across2 down2 ["AB"; "AD"]).
Proof.
  split; [by vm_compute|].
  apply (solve_sound (crossing across2 down2 ["AB"; "AD"])
           [(across2, "AB"); (down2, "AD")]
           (solve (crossing across2 down2 ["AB"; "AD"])
              (init (crossing across2 down2 ["AB"; "AD"]))).2).
  by vm_compute.
Defined.

(** X22: when [solve] returns, with or without a solution, the domains
    are those that [enforce_node_consistency] left: neither the
    propagation nor the search has pruned or restored a word. *)
Theorem solve_keeps_node_consistent_domains c s r s' :
  solve c s = (Ret r, s') →
  ∃ s1, enforce_node_consistency c s = (Ret tt, s1) ∧
        domains_of_x s' = domains_of_x s1.
Proof.
  intros (s1 & Henc & Hbt)%solve_inv. exists s1. split; [done|].
  by apply store_stable_backtrack in Hbt.
Qed.

Lemma solve_keeps_node_consistent_domains_witness :
  ∃ s1,
    solve (crossing across2 down2 ["AB"; "CD"])
      (init (crossing across2 down2 ["AB"; "CD"]))
    = (Ret None,
       (solve (crossing across2 down2 ["AB"; "CD"])
          (init (crossing across2 down2 ["AB"; "CD"]))).2) ∧
    enforce_node_consistency (crossing across2 down2 ["AB"; "CD"])
      (init (crossing across2 down2 ["AB"; "CD"])) = (Ret tt, s1) ∧
    domains_of_x
      (solve (crossing across2 down2 ["AB"; "CD"])
         (init (crossing across2 down2 ["AB"; "CD"]))).2
    = domains_of_x s1.
Proof.
  destruct (solve_keeps_node_consistent_domains
              (crossing across2 down2 ["AB"; "CD"])
              (init (crossing across2 down2 ["AB"; "CD"])) None
              (solve (crossing across2 down2 ["AB"; "CD"])
                 (init (crossing across2 down2 ["AB"; "CD"]))).2)
    as (s1 & H1 & H2); [by vm_compute|].
  exists s1. split; [by vm_compute|]. done.
Defined.

(** X23: [solve] never uses up the budgets of the embedding: in [ac3] no
    arc is ever put back on the worklist, and the recursion of [backtrack]
    is at most one deeper than the number of variables. *)
Theorem solve_terminates c s : (solve c s).1 ≠ Diverge.
Proof. apply solve_never_diverges. Qed.

(** X24: on a puzzle without variables [solve] returns the empty
    assignment, not the no-solution value, after one entry into
    [backtrack]. *)
Theorem solve_without_variables c s :
  variables c = [] →
  solve c s
  = (Ret (Some []), {| domains_of_x := domains_of_x s;
                       backtrack_calls := S (backtrack_calls s) |}).
Proof.
  intros Hvars.
  assert (enforce_node_consistency c s = (Ret tt, s)) as Henc.
  { unfold enforce_node_consistency. by rewrite Hvars. }
  assert (ac3 c None s = (Ret true, s)) as Hac3.
  { unfold ac3, worklist, all_arcs. rewrite Hvars. simpl.
    by destruct (ac3_budget c [] s). }
  unfold solve.
  rewrite (bind_Ret _ _ _ _ _ Henc), (bind_Ret _ _ _ _ _ Hac3), backtrack_unfold.
  assert (assignment_complete c [] = true) as ->; [|done].
  apply bool_decide_eq_true. rewrite Hvars.
  split; intros x Hx; by apply not_elem_of_nil in Hx.
Qed.

Lemma solve_without_variables_witness :
  solve {| variables := []; words := ["AB"]; overlaps := ∅ |}
    {| domains_of_x := ∅; backtrack_calls := 0 |}
  = (Ret (Some []), {| domains_of_x := ∅; backtrack_calls := 1 |}).
Proof. by apply solve_without_variables. Defined.

(** * The arcs that [ac3] puts back on the worklist *)

Lemma enqueue_fold x y (ns : list Var.t) :
  ∀ arcs : list arc,
    ∃ added,
      foldl (λ arcs var,
               if decide (var = y) then arcs
               else if decide ((var, x) ∈ arcs) then arcs
               else arcs ++ [(var, x)]) arcs ns
      = arcs ++ added ∧
      NoDup added ∧
      ∀ a : arc, a ∈ added ↔
        (a ∉ arcs) ∧ ∃ var, a = (var, x) ∧ var ∈ ns ∧ var ≠ y.
Proof.
  induction ns as [|n ns IH]; intros arcs; simpl.
  - exists []. rewrite app_nil_r. split_and!; [done|constructor|].
    intros a. split; [by intros ?%not_elem_of_nil|].
    by intros (_ & var & _ & ?%not_elem_of_nil & _).
  - destruct (decide (n = y)) as [->|Hny].
    { destruct (IH arcs) as (added & Heq & Hnd & Hin).
      exists added. split_and!; [done..|]. intros a. rewrite Hin.
      split; intros (Ha & var & -> & Hvar & Hne); (split; [done|]);
        exists var; split_and!; try done.
      - by apply list_elem_of_further.
      - by apply elem_of_cons in Hvar as [->|?]. }
    destruct (decide ((n, x) ∈ arcs)) as [Hold|Hnew].
    { destruct (IH arcs) as (added & Heq & Hnd & Hin).
      exists added. split_and!; [done..|]. intros a. rewrite Hin.
      split; intros (Ha & var & -> & Hvar & Hne); (split; [done|]);
        exists var; split_and!; try done.
      - by apply list_elem_of_further.
      - by apply elem_of_cons in Hvar as [->|?]. }
    destruct (IH (arcs ++ [(n, x)])) as (added & Heq & Hnd & Hin).
    exists ((n, x) :: added). split_and!.
    + by rewrite Heq, <- app_assoc.
    + constructor; [|done]. rewrite Hin. intros [Hnot _].
      apply Hnot, elem_of_app. right. apply list_elem_of_here.
    + intros a. rewrite elem_of_cons, Hin, not_elem_of_app,
        list_elem_of_singleton. split.
      * intros [->|((Ha & Hne') & var & -> & Hvar & Hne)].
        -- split; [done|]. exists n. split_and!; [done| |done].
           apply list_elem_of_here.
        -- split; [done|]. exists var. split_and!; [done| |done].
           by apply list_elem_of_further.
      * intros (Ha & var & -> & Hvar & Hne).
        destruct (decide (var = n)) as [->|Hvn]; [by left|right].
        split; [split; [done|congruence]|].
        exists var. split_and!; [done| |done].
        by apply elem_of_cons in Hvar as [->|?].
Qed.

(** X25: the re-queueing step of [ac3] after a revision of x against y
    keeps the worklist as a prefix and appends, without repetition,
    exactly the arcs (z, x) for the neighbors z of x other than y that
    are not already in the worklist. *)
Theorem enqueue_appends_missing_arcs c x y arcs :
  ∃ added,
    enqueue c x y arcs = arcs ++ added ∧
    NoDup added ∧
    ∀ a : arc, a ∈ added ↔
      (a ∉ arcs) ∧ ∃ z, a = (z, x) ∧ z ∈ neighbors c x ∧ z ≠ y.
Proof. apply enqueue_fold. Qed.

(** * [letter_grid] *)

Lemma set_letter_run h w letters i j ch s :
  grid_shape h w letters → i < h → j < w →
  ∃ letters',
    set_letter letters i j ch s = (Ret letters', s) ∧
    grid_shape h w letters' ∧
    ∀ cell cur, cell_at letters cell = Some cur →
      cell_at letters' cell
      = Some (if decide ((i, j) = cell) then Some ch else cur).
Proof.
  intros [Hlen Hrows] Hi Hj. unfold set_letter.
  destruct (letters !! i) as [row|] eqn:Hrow;
    [|apply lookup_ge_None in Hrow; lia].
  assert (List.length row = w) as Hw.
  { rewrite Forall_forall in Hrows. apply Hrows.
    by apply list_elem_of_lookup_2 in Hrow. }
  rewrite decide_True by lia. eexists. split; [done|]. split.
  - split; [by rewrite length_insert|].
    apply Forall_insert; [done|]. by rewrite length_insert.
  - intros [r col] cur. unfold cell_at. simpl.
    destruct (decide (i = r)) as [->|Hir].
    + rewrite list_lookup_insert_eq by (by apply lookup_lt_Some in Hrow).
      rewrite Hrow. simpl. destruct (decide (j = col)) as [->|Hjc].
      * rewrite list_lookup_insert_eq by lia. rewrite decide_True by done.
        intros _. done.
      * rewrite list_lookup_insert_ne by done.
        rewrite decide_False by congruence. done.
    + rewrite list_lookup_insert_ne by done.
      rewrite decide_False by congruence. done.
Qed.

Lemma set_letter_out_of_range h w letters i j ch s :
  grid_shape h w letters → ¬ (i < h ∧ j < w) →
  set_letter letters i j ch s = (Raise IndexError, s).
Proof.
  intros [Hlen Hrows] Hout. unfold set_letter.
  destruct (letters !! i) as [row|] eqn:Hrow; [|done].
  assert (List.length row = w) as Hw.
  { rewrite Forall_forall in Hrows. apply Hrows.
    by apply list_elem_of_lookup_2 in Hrow. }
  apply lookup_lt_Some in Hrow. rewrite decide_False; [done|lia].
Qed.

Lemma word_writes_cons variable word k ks ch :
  String.get k word = Some ch →
  omap (λ k, (λ ch, (cell_of variable k, ch)) <$> String.get k word) (k :: ks)
  = (cell_of variable k, ch)
    :: omap (λ k, (λ ch, (cell_of variable k, ch)) <$> String.get k word) ks.
Proof. intros Hget. simpl. by rewrite Hget. Qed.

(** The loop over the letters of one word, for any list of indices. *)
Lemma write_indices_run h w variable word ks :
  (∀ k, k ∈ ks → k < String.length word) →
  Forall (λ k, (cell_of variable k).1 < h ∧ (cell_of variable k).2 < w) ks →
  ∀ letters s,
    grid_shape h w letters →
    ∃ letters',
      for_fold ks letters (λ letters k,
        ch <- char_at word k ;;
        set_letter letters (cell_of variable k).1 (cell_of variable k).2 ch) s
      = (Ret letters', s) ∧
      grid_shape h w letters' ∧
      ∀ cell cur, cell_at letters cell = Some cur →
        cell_at letters' cell
        = Some (last_write cell cur
                  (omap (λ k, (λ ch, (cell_of variable k, ch))
                                <$> String.get k word) ks)).
Proof.
  induction ks as [|k ks IH]; intros Hks Hfit letters s Hshape.
  - exists letters. split_and!; [done..|]. by intros cell cur ->.
  - apply Forall_cons in Hfit as [[Hi Hj] Hfit].
    destruct (get_is_Some word k) as [ch Hch];
      [apply Hks, list_elem_of_here|].
    destruct (set_letter_run h w letters _ _ ch s Hshape Hi Hj)
      as (letters1 & Hset & Hshape1 & Hcell1).
    destruct (IH (λ z Hz, Hks z (list_elem_of_further _ _ _ Hz)) Hfit
                letters1 s Hshape1) as (letters' & Hrun & Hshape' & Hcell').
    exists letters'. split_and!; [|done|].
    + rewrite for_fold_cons. erewrite bind_Ret; [exact Hrun|].
      unfold bind, char_at. by rewrite Hch.
    + intros cell cur Hcur. rewrite (word_writes_cons _ _ _ _ _ Hch).
      by rewrite (Hcell' cell _ (Hcell1 cell cur Hcur)).
Qed.

Lemma write_indices_out_of_range h w variable word ks :
  (∀ k, k ∈ ks → k < String.length word) →
  ¬ Forall (λ k, (cell_of variable k).1 < h ∧ (cell_of variable k).2 < w) ks →
  ∀ letters s,
    grid_shape h w letters →
    for_fold ks letters (λ letters k,
      ch <- char_at word k ;;
      set_letter letters (cell_of variable k).1 (cell_of variable k).2 ch) s
    = (Raise IndexError, s).
Proof.
  induction ks as [|k ks IH]; intros Hks Hout letters s Hshape.
  - destruct Hout. constructor.
  - destruct (get_is_Some word k) as [ch Hch];
      [apply Hks, list_elem_of_here|].
    rewrite for_fold_cons.
    destruct (decide ((cell_of variable k).1 < h ∧ (cell_of variable k).2 < w))
      as [[Hi Hj]|Hbad].
    + destruct (set_letter_run h w letters _ _ ch s Hshape Hi Hj)
        as (letters1 & Hset & Hshape1 & _).
      erewrite bind_Ret; [|unfold bind, char_at; by rewrite Hch].
      apply IH; [|  |done].
      * intros z Hz. by apply Hks, list_elem_of_further.
      * intros Hall. apply Hout. by constructor.
    + erewrite bind_Raise; [done|].
      unfold bind, char_at. rewrite Hch. simpl.
      by apply (set_letter_out_of_range h w).
Qed.

Lemma seq_lt n k : k ∈ seq 0 n → k < n.
Proof. intros [_ ?]%elem_of_seq. lia. Qed.

Lemma last_write_app cell cur ws1 ws2 :
  last_write cell cur (ws1 ++ ws2)
  = last_write cell (last_write cell cur ws1) ws2.
Proof. unfold last_write. apply foldl_app. Qed.

(** The loop over the items, from any grid of the right shape. *)
Lemma letter_grid_run g (a : assignment) :
  Forall (fits g) a →
  ∀ letters s,
    grid_shape (height g) (width g) letters →
    ∃ letters',
      for_fold a letters (λ letters item, write_word item.1 item.2 letters) s
      = (Ret letters', s) ∧
      grid_shape (height g) (width g) letters' ∧
      ∀ cell cur, cell_at letters cell = Some cur →
        cell_at letters' cell = Some (last_write cell cur (writes a)).
Proof.
  induction 1 as [|item a Hitem Ha IH]; intros letters s Hshape.
  - exists letters. split_and!; [done..|]. by intros cell cur ->.
  - destruct (write_indices_run (height g) (width g) item.1 item.2
                (seq 0 (String.length item.2)) (seq_lt _) Hitem letters s Hshape)
      as (letters1 & Hrun1 & Hshape1 & Hcell1).
    destruct (IH letters1 s Hshape1) as (letters' & Hrun & Hshape' & Hcell').
    exists letters'. split_and!; [|done|].
    + rewrite for_fold_cons. by erewrite bind_Ret.
    + intros cell cur Hcur. unfold writes. rewrite bind_cons, last_write_app.
      by apply Hcell', Hcell1.
Qed.

Lemma letter_grid_out_of_range g (a : assignment) :
  ¬ Forall (fits g) a →
  ∀ letters s,
    grid_shape (height g) (width g) letters →
    for_fold a letters (λ letters item, write_word item.1 item.2 letters) s
    = (Raise IndexError, s).
Proof.
  induction a as [|item a IH]; intros Hout letters s Hshape.
  - destruct Hout. constructor.
  - rewrite for_fold_cons. destruct (decide (fits g item)) as [Hitem|Hbad].
    + destruct (write_indices_run (height g) (width g) item.1 item.2
                  (seq 0 (String.length item.2)) (seq_lt _) Hitem letters s Hshape)
        as (letters1 & Hrun1 & Hshape1 & _).
      erewrite bind_Ret; [|exact Hrun1].
      apply IH; [|done]. intros Hall. apply Hout. by constructor.
    + erewrite bind_Raise; [done|].
      by apply (write_indices_out_of_range (height g) (width g));
        [apply seq_lt|..].
Qed.

Lemma blank_grid_shape h w :
  grid_shape h w (replicate h (replicate w None)).
Proof.
  split; [apply length_replicate|].
  apply Forall_replicate. apply length_replicate.
Qed.

Lemma blank_grid_cell h w cell :
  cell.1 < h → cell.2 < w →
  cell_at (replicate h (replicate w None)) cell = Some None.
Proof.
  intros H1 H2. unfold cell_at.
  rewrite lookup_replicate_2 by done. simpl. by rewrite lookup_replicate_2.
Qed.

(** X26: when every assigned word fits in the grid, [letter_grid]
    returns a grid of [height] rows of [width] cells and leaves the
    solver state alone. *)
Theorem letter_grid_shape g a s :
  Forall (fits g) a →
  ∃ letters,
    letter_grid g a s = (Ret letters, s) ∧
    List.length letters = height g ∧
    ∀ row, row ∈ letters → List.length row = width g.
Proof.
  intros Hfit.
  destruct (letter_grid_run g a Hfit _ s (blank_grid_shape _ _))
    as (letters & Hrun & [Hlen Hrows] & _).
  exists letters. split_and!; [done..|]. by apply Forall_forall.
Qed.

(** X27: in the grid that [letter_grid] returns, a cell holds the letter
    that was written to it last, in the order in which the items of the
    assignment and the letters of each word are visited, and [None] when
    no word covers it. *)
Theorem letter_grid_last_write g a s letters s' cell :
  letter_grid g a s = (Ret letters, s') →
  cell.1 < height g → cell.2 < width g →
  cell_at letters cell = Some (last_write cell None (writes a)).
Proof.
  intros Hrun H1 H2.
  destruct (decide (Forall (fits g) a)) as [Hfit|Hbad].
  - destruct (letter_grid_run g a Hfit _ s (blank_grid_shape _ _))
      as (letters' & Hrun' & _ & Hcell).
    unfold letter_grid in Hrun. rewrite Hrun' in Hrun.
    injection Hrun as <- _. by apply Hcell, blank_grid_cell.
  - unfold letter_grid in Hrun.
    by rewrite (letter_grid_out_of_range g a Hbad _ s (blank_grid_shape _ _))
      in Hrun.
Qed.

(** X28: when some assigned word has a letter outside the grid,
    [letter_grid] raises [IndexError]. *)
Theorem letter_grid_index_error g a s :
  ¬ Forall (fits g) a → letter_grid g a s = (Raise IndexError, s).
Proof.
  intros Hbad.
  by apply (letter_grid_out_of_range g a Hbad _ s (blank_grid_shape _ _)).
Qed.

Lemma corner_assignment_fits : Forall (fits corner_grid) corner_assignment.
Proof. repeat constructor. Qed.

Lemma letter_grid_shape_witness :
  ∃ letters,
    letter_grid corner_grid corner_assignment (init (lone across2 []))
    = (Ret letters, init (lone across2 [])) ∧
    List.length letters = height corner_grid ∧
    ∀ row, row ∈ letters → List.length row = width corner_grid.
Proof. apply letter_grid_shape, corner_assignment_fits. Defined.

Lemma letter_grid_last_write_witness :
  letter_grid corner_grid [(across2, "AB"); (down2, "CD")]
    (init (lone across2 []))
  = (Ret [[Some "C"%char; Some "B"%char]; [Some "D"%char; None]],
     init (lone across2 [])) ∧
  cell_at [[Some "C"%char; Some "B"%char]; [Some "D"%char; None]] (0, 0)
  = Some (last_write (0, 0) None (writes [(across2, "AB"); (down2, "CD")])).
Proof.
  split; [by vm_compute|].
  apply (letter_grid_last_write corner_grid _ (init (lone across2 []))
           _ (init (lone across2 [])));
    [by vm_compute|simpl; lia..].
Defined.

Lemma letter_grid_index_error_witness :
  letter_grid corner_grid [(down3, "CDE")] (init (lone across2 []))
  = (Raise IndexError, init (lone across2 [])).
Proof.
  apply letter_grid_index_error.
  apply (bool_decide_eq_false_1 (Forall (fits corner_grid) [(down3, "CDE")])).
  by vm_compute.
Defined.

Lemma get_Some_lt w : ∀ k ch, String.get k w = Some ch → k < String.length w.
Proof.
  induction w as [|c w IH]; intros k ch; simpl; [done|].
  destruct k as [|k]; [lia|]. intros H%IH. lia.
Qed.

Lemma cell_of_inj variable k1 k2 :
  cell_of variable k1 = cell_of variable k2 → k1 = k2.
Proof.
  unfold cell_of. intros H.
  pose proof (f_equal fst H) as H1. pose proof (f_equal snd H) as H2.
  destruct (Var.direction variable); simpl in *; lia.
Qed.

Lemma last_write_missed cell cur ws :
  (∀ w, w ∈ ws → w.1 ≠ cell) → last_write cell cur ws = cur.
Proof.
  unfold last_write. revert cur.
  induction ws as [|w ws IH]; intros cur Hall; simpl; [done|].
  rewrite decide_False by apply Hall, list_elem_of_here.
  apply IH. intros z Hz. by apply Hall, list_elem_of_further.
Qed.

Lemma last_write_own_letter variable word k ch ks :
  String.get k word = Some ch → NoDup ks → k ∈ ks →
  ∀ cur,
    last_write (cell_of variable k) cur
      (omap (λ k, (λ ch, (cell_of variable k, ch)) <$> String.get k word) ks)
    = Some ch.
Proof.
  intros Hch. induction ks as [|k' ks IH]; intros Hnd Hk cur.
  - by apply not_elem_of_nil in Hk.
  - apply NoDup_cons in Hnd as [Hnotin Hnd].
    destruct (decide (k' = k)) as [->|Hne].
    + rewrite (word_writes_cons _ _ _ _ _ Hch). unfold last_write. simpl.
      rewrite decide_True by done. apply last_write_missed.
      intros w (k2 & Hk2 & Hw)%list_elem_of_omap.
      destruct (String.get k2 word) as [ch2|]; [|done].
      injection Hw as <-. simpl. intros Heq%cell_of_inj. congruence.
    + apply elem_of_cons in Hk as [->|Hk]; [done|].
      simpl. destruct (String.get k' word) as [ch'|]; simpl; [|by apply IH].
      unfold last_write. simpl. by apply IH.
Qed.

(** X29: in the grid that [letter_grid] returns, the word of the last
    item of the assignment can be read back letter by letter from the
    cells of its variable. *)
Theorem letter_grid_last_item g a variable word s letters s' k ch :
  letter_grid g (a ++ [(variable, word)]) s = (Ret letters, s') →
  String.get k word = Some ch →
  cell_at letters (cell_of variable k) = Some (Some ch).
Proof.
  intros Hrun Hch. pose proof (get_Some_lt _ _ _ Hch) as Hk.
  destruct (decide (Forall (fits g) (a ++ [(variable, word)]))) as [Hfit|Hbad].
  2:{ unfold letter_grid in Hrun.
      by rewrite (letter_grid_out_of_range g _ Hbad _ s (blank_grid_shape _ _))
        in Hrun. }
  destruct (letter_grid_run g _ Hfit _ s (blank_grid_shape _ _))
    as (letters' & Hrun' & _ & Hcell).
  unfold letter_grid in Hrun. rewrite Hrun' in Hrun. injection Hrun as <- _.
  apply Forall_app in Hfit as [_ [Hitem _]%Forall_cons].
  unfold fits in Hitem. rewrite Forall_forall in Hitem.
  destruct (Hitem k) as [H1 H2]; [apply elem_of_seq; simpl; lia|].
  rewrite (Hcell _ None) by (by apply blank_grid_cell).
  f_equal. unfold writes. rewrite bind_app, last_write_app. simpl.
  rewrite app_nil_r. apply last_write_own_letter; [done|apply NoDup_seq|].
  apply elem_of_seq. simpl. lia.
Qed.

Lemma letter_grid_last_item_witness :
  letter_grid corner_grid ([(across2, "AB")] ++ [(down2, "CD")])
    (init (lone across2 []))
  = (Ret [[Some "C"%char; Some "B"%char]; [Some "D"%char; None]],
     init (lone across2 [])) ∧
  String.get 1 "CD" = Some "D"%char ∧
  cell_at [[Some "C"%char; Some "B"%char]; [Some "D"%char; None]]
    (cell_of down2 1) = Some (Some "D"%char).
Proof.
  split; [by vm_compute|]. split; [done|].
  apply (letter_grid_last_item corner_grid [(across2, "AB")] down2 "CD"
           (init (lone across2 [])) _ (init (lone across2 [])));
    by vm_compute.
Defined.

(** * [print] *)

Lemma item_at_run {A} (l : list A) k x s :
  l !! k = Some x → item_at l k s = (Ret x, s).
Proof. intros H. unfold item_at. by rewrite H. Qed.

(** X30: when every assigned word fits and [structure] has [height] rows
    of [width] cells, [print] writes [height] lines of [width] texts each;
    the text of a blocked cell is the block literal, and the text of an
    open cell is the letter written to it last, or a space. *)
Theorem print_lines g a s :
  Forall (fits g) a →
  List.length (structure g) = height g →
  (∀ row, row ∈ structure g → List.length row = width g) →
  print g a s
  = (Ret ((λ i, (λ j, cell_text g a i j) <$> seq 0 (width g))
            <$> seq 0 (height g)), s).
Proof.
  intros Hfit Hrows Hcols.
  destruct (letter_grid_run g a Hfit _ s (blank_grid_shape _ _))
    as (letters & Hrun & [Hlen Hshape] & Hcell).
  unfold print. erewrite bind_Ret; [|exact Hrun].
  apply comprehension_pure. intros i Hi%seq_lt.
  apply comprehension_pure. intros j Hj%seq_lt.
  destruct (lookup_lt_is_Some_2 (structure g) i) as [srow Hsrow]; [lia|].
  assert (List.length srow = width g) as Hsw.
  { apply Hcols. by apply list_elem_of_lookup_2 in Hsrow. }
  destruct (lookup_lt_is_Some_2 srow j) as [open Hopen]; [lia|].
  erewrite bind_Ret; [|by apply item_at_run].
  erewrite bind_Ret; [|by apply item_at_run].
  unfold cell_text. rewrite Hsrow. simpl. rewrite Hopen.
  destruct open; [|done].
  pose proof (Hcell (i, j) None (blank_grid_cell _ _ (i, j) Hi Hj)) as Hij.
  unfold cell_at in Hij. simpl in Hij.
  destruct (letters !! i) as [lrow|] eqn:Hlrow; [|done]. simpl in Hij.
  erewrite bind_Ret; [|by apply item_at_run].
  erewrite bind_Ret; [|by apply item_at_run].
  done.
Qed.

Lemma print_lines_witness :
  print corner_grid corner_assignment (init (lone across2 []))
  = (Ret [["A"; "B"]; ["D"; block_text]], init (lone across2 [])) ∧
  print corner_grid corner_assignment (init (lone across2 []))
  = (Ret ((λ i, (λ j, cell_text corner_grid corner_assignment i j)
                  <$> seq 0 (width corner_grid))
            <$> seq 0 (height corner_grid)), init (lone across2 [])).
Proof.
  split; [by vm_compute|].
  apply print_lines; [apply corner_assignment_fits|done|].
  intros row Hrow. simpl in Hrow. rewrite !elem_of_cons, elem_of_nil in Hrow.
  destruct Hrow as [->|[->|[]]]; done.
Defined.

(** * [solve] after the propagation *)




